(** * Multi-sensor satellite pipeline: overlap selection, radar and optical
      raster processing

    Shallow embedding of
    - [ingestion/Data_Ingestion.py], section 6 (best overlap pair),
    - [preprocessing/Sentinel-1_Processing.py] (calibration, decibel
      conversion, range masking, Lee filter, texture patch),
    - [preprocessing/Sentinel-2_Processing.py] (reflectance scaling,
      vegetation index, cloud masking).

    Conventions of the embedding.  An array element is a [npfloat]: a
    not-a-number, an infinity, or a finite value carried as an exact
    rational ([Qc], canonical fractions, so that equal values are equal
    terms).  Rounding, overflow and the sign of zero are not represented;
    every other rule of the array arithmetic (propagation of not-a-number,
    comparisons with it being false, division by zero) is written out.
    Rasters are lists of rows.  Library functions that are not part of the
    repository and cannot be computed on rationals ([log10], polygon
    geometry) are section variables. *)

From Stdlib Require Import QArith Qcanon Qround ZArith Lia Lqa.
From stdpp Require Import base list numbers.

Local Open Scope Qc_scope.

(* ===================================================================== *)
(** * Part I.  Definitions                                                *)
(* ===================================================================== *)

(** ** Errors raised by the scripts *)

Inductive error : Type :=
  | NoOverlapFound      (* Exception("No overlapping S1-S2 pair found") *)
  | ZeroDivisionError   (* Python float division by zero *)
  | ValueError.         (* reductions over empty arrays, range checks *)

Inductive result (A : Type) : Type :=
  | Ok (a : A)
  | Raise (e : error).
Arguments Ok {A} a.
Arguments Raise {A} e.

#[global] Instance result_ret : MRet result := fun A a => Ok a.

#[global] Instance result_bind : MBind result := fun A B k r =>
  match r with
  | Ok a => k a
  | Raise e => Raise e
  end.

(** ** Array elements *)

Module Numeric.

Inductive npfloat : Type :=
  | NaN
  | Inf (neg : bool)      (* [Inf false] is +inf, [Inf true] is -inf *)
  | Fin (q : Qc).

#[global] Instance npfloat_eq_dec : EqDecision npfloat.
Proof. solve_decision. Defined.

Definition of_Z (z : Z) : Qc := Q2Qc (inject_Z z).

Definition isnan (a : npfloat) : bool :=
  match a with NaN => true | _ => false end.

Definition sign_neg (x : Qc) : bool := bool_decide (x < 0).

(** [a < b]: false as soon as one side is not-a-number. *)
Definition flt (a b : npfloat) : bool :=
  match a, b with
  | NaN, _ | _, NaN => false
  | Inf true, Inf true => false
  | Inf true, _ => true
  | _, Inf true => false
  | Inf false, _ => false
  | Fin _, Inf false => true
  | Fin x, Fin y => bool_decide (x < y)
  end.

Definition fgt (a b : npfloat) : bool := flt b a.

(** [a == b]: not-a-number equals nothing. *)
Definition feqb (a b : npfloat) : bool :=
  match a, b with
  | Fin x, Fin y => bool_decide (x = y)
  | Inf s, Inf t => bool_decide (s = t)
  | _, _ => false
  end.

Definition fneg (a : npfloat) : npfloat :=
  match a with
  | NaN => NaN
  | Inf s => Inf (negb s)
  | Fin x => Fin (- x)
  end.

Definition fadd (a b : npfloat) : npfloat :=
  match a, b with
  | NaN, _ | _, NaN => NaN
  | Inf s, Inf t => if bool_decide (s = t) then Inf s else NaN
  | Inf s, Fin _ | Fin _, Inf s => Inf s
  | Fin x, Fin y => Fin (x + y)
  end.

Definition fsub (a b : npfloat) : npfloat := fadd a (fneg b).

Definition fmul (a b : npfloat) : npfloat :=
  match a, b with
  | NaN, _ | _, NaN => NaN
  | Inf s, Inf t => Inf (xorb s t)
  | Inf s, Fin x | Fin x, Inf s =>
      if bool_decide (x = 0) then NaN else Inf (xorb s (sign_neg x))
  | Fin x, Fin y => Fin (x * y)
  end.

(** Array division: a zero divisor gives an infinity, or not-a-number
    for 0/0; it never raises. *)
Definition fdiv (a b : npfloat) : npfloat :=
  match a, b with
  | NaN, _ | _, NaN => NaN
  | Inf _, Inf _ => NaN
  | Inf s, Fin y => Inf (xorb s (sign_neg y))
  | Fin _, Inf _ => Fin 0
  | Fin x, Fin y =>
      if bool_decide (y = 0)
      then (if bool_decide (x = 0) then NaN else Inf (sign_neg x))
      else Fin (x / y)
  end.

(** [x ** 2] *)
Definition fsquare (a : npfloat) : npfloat := fmul a a.

(** Largest finite single-precision value, what [np.nan_to_num] puts in
    place of an infinity. *)
Definition float32_max : Qc :=
  of_Z 340282346638528859811704183484516925440.

(** [np.nan_to_num(a, nan=v)] on one element. *)
Definition nan_to_num (v : Qc) (a : npfloat) : npfloat :=
  match a with
  | NaN => Fin v
  | Inf false => Fin float32_max
  | Inf true => Fin (- float32_max)
  | Fin x => Fin x
  end.

(** Rasters: a list of rows. *)
Abbreviation grid := (list (list npfloat)).

Definition gmap (f : npfloat -> npfloat) (g : grid) : grid :=
  fmap (M:=list) (fmap (M:=list) f) g.

Definition gmap2 (f : npfloat -> npfloat -> npfloat) (a b : grid) : grid :=
  zip_with (zip_with f) a b.

(** [g[i, j]] *)
Definition gget (g : grid) (i j : nat) : option npfloat :=
  row ← g !! i; row !! j.

Definition full (rows cols : nat) (a : npfloat) : grid :=
  replicate rows (replicate cols a).

(** Row lengths of an array; [replicate rows cols] for an array of shape
    [(rows, cols)]. *)
Definition shape_of {A} (g : list (list A)) : list nat := length <$> g.

(** All elements in row-major order ([g.ravel()]). *)
Definition ravel (g : grid) : list npfloat := concat g.

Definition fsum (l : list npfloat) : npfloat := foldl fadd (Fin 0) l.

Definition of_nat (n : nat) : npfloat := Fin (of_Z (Z.of_nat n)).

(** A finite value, and a finite value that is not negative. *)
Definition finite (x : npfloat) : Prop := exists q, x = Fin q.

Definition nonneg (x : npfloat) : Prop := exists q, x = Fin q /\ 0 <= q.

End Numeric.
Export Numeric.

(** ** Selection of the best overlapping pair
    ([ingestion/Data_Ingestion.py], lines 121-140) *)

Module Selector.
Section Geometry.

(** Catalogue records and the polygon library (shapely), which the
    script only uses through [shape], [intersection], [is_empty] and
    [area]. *)
Variable Product : Type.
Variable Geometry : Type.
Variable shape : Product -> Geometry.
Variable intersection : Geometry -> Geometry -> Geometry.
Variable is_empty : Geometry -> bool.
Variable area : Geometry -> Qc.

(** Loop state: [(best_pair, best_overlap)]. *)
Definition state : Type := option (Product * Product) * Qc.

Definition init : state := (None, 0).

(** Python's [/] on floats raises on a zero divisor. *)
Definition pydiv (x y : Qc) : result Qc :=
  if bool_decide (y = 0) then Raise ZeroDivisionError else Ok (x / y).

(** Body of the inner loop for one [(s1, s2)]. *)
Definition body (s1 s2 : Product) (st : state) : result state :=
  let geom_s1 := shape s1 in
  let geom_s2 := shape s2 in
  let inter := intersection geom_s1 geom_s2 in
  if negb (is_empty inter) then
    ratio ← pydiv (area inter) (area geom_s2);
    let overlap := ratio * of_Z 100 in
    if bool_decide (st.2 < overlap) then Ok (Some (s1, s2), overlap)
    else Ok st
  else Ok st.

Fixpoint inner_loop (s1 : Product) (data_s2 : list Product) (st : state)
  : result state :=
  match data_s2 with
  | [] => Ok st
  | s2 :: rest => st' ← body s1 s2 st; inner_loop s1 rest st'
  end.

Fixpoint outer_loop (data_s1 data_s2 : list Product) (st : state)
  : result state :=
  match data_s1 with
  | [] => Ok st
  | s1 :: rest => st' ← inner_loop s1 data_s2 st; outer_loop rest data_s2 st'
  end.

Definition selectBestPair (data_s1 data_s2 : list Product)
  : result (Product * Product) :=
  st ← outer_loop data_s1 data_s2 init;
  match st.1 with
  | None => Raise NoOverlapFound
  | Some best_pair => Ok best_pair
  end.

(** The overlap score of a combination and the order in which the two
    loops visit the combinations. *)
Definition score (p : Product * Product) : Qc :=
  area (intersection (shape p.1) (shape p.2)) / area (shape p.2) * of_Z 100.

Definition inter_area (p : Product * Product) : Qc :=
  area (intersection (shape p.1) (shape p.2)).

Definition iteration_order (data_s1 data_s2 : list Product)
  : list (Product * Product) :=
  s1 ← data_s1; (pair s1) <$> data_s2.

(** The two nested loops as one pass over [iteration_order]. *)
Fixpoint run_pairs (l : list (Product * Product)) (st : state)
  : result state :=
  match l with
  | [] => Ok st
  | p :: rest => st' ← body p.1 p.2 st; run_pairs rest st'
  end.

(** What one iteration does to the state when it does not raise. *)
Definition update (st : state) (p : Product * Product) : state :=
  if bool_decide (st.2 < score p) then (Some p, score p) else st.

End Geometry.

(** A concrete polygon library for examples: axis-aligned rectangles with
  integer corners, [None] being the empty geometry. *)
Module Rect.

Record rect : Type := mk_rect { xmin : Z; ymin : Z; xmax : Z; ymax : Z }.

Definition geometry : Type := option rect.

Definition wf (r : rect) : bool :=
  bool_decide (xmin r <= xmax r)%Z && bool_decide (ymin r <= ymax r)%Z.

Definition shape (r : rect) : geometry := if wf r then Some r else None.

Definition intersection (a b : geometry) : geometry :=
  match a, b with
  | Some r, Some s =>
      shape (mk_rect (Z.max (xmin r) (xmin s)) (Z.max (ymin r) (ymin s))
                     (Z.min (xmax r) (xmax s)) (Z.min (ymax r) (ymax s)))
  | _, _ => None
  end.

Definition is_empty (g : geometry) : bool :=
  match g with None => true | Some _ => false end.

Definition area (g : geometry) : Qc :=
  match g with
  | None => 0
  | Some r => of_Z (Z.max 0 (xmax r - xmin r) * Z.max 0 (ymax r - ymin r))
  end.

Definition select := selectBestPair rect geometry shape intersection is_empty area.

(** Two radar and two optical scenes, 10 x 10 each; the first radar scene
    covers half of either optical scene, the second a fifth of the first
    optical scene only. *)
Definition radar_a := mk_rect 0 0 10 10.
Definition radar_b := mk_rect 13 0 23 10.
Definition optical_a := mk_rect 5 0 15 10.
Definition optical_b := mk_rect (-5) 0 5 10.

(** An optical footprint collapsed to a segment on the first radar scene:
    its intersection with that scene is not empty and its area is 0. *)
Definition optical_flat := mk_rect 5 0 5 10.

End Rect.
End Selector.

(** ** Radar pipeline ([preprocessing/Sentinel-1_Processing.py]) *)

Module Radar.

(** *** Steps 1 to 3: calibration, decibels, range masking
    (lines 104-108, and the same code at lines 51-72) *)

Definition scaling_factor : Qc := of_Z 10000.
Definition epsilon : Qc := / of_Z 10000000000.          (* 1e-10 *)
Definition db_min : Qc := of_Z (-40).
Definition db_max : Qc := of_Z 5.

Section Log.
(** [np.log10], defined by the array library. *)
Variable log10 : npfloat -> npfloat.

(** [sigma0_linear = vh_window / 10000.0] *)
Definition sigma0_linear (vh_window : grid) : grid :=
  gmap (fun x => fdiv x (Fin scaling_factor)) vh_window.

(** [10 * np.log10(sigma0_linear + 1e-10)] *)
Definition to_db (lin : grid) : grid :=
  gmap (fun x => fmul (Fin (of_Z 10)) (log10 (fadd x (Fin epsilon)))) lin.

(** [a[a < -40] = np.nan] *)
Definition mask_below (g : grid) : grid :=
  gmap (fun x => if flt x (Fin db_min) then NaN else x) g.

(** [a[a > 5] = np.nan] *)
Definition mask_above (g : grid) : grid :=
  gmap (fun x => if fgt x (Fin db_max) then NaN else x) g.

(** The masked decibel window, as a function of the raw window. *)
Definition sigma0_db_window (vh_window : grid) : grid :=
  mask_above (mask_below (to_db (sigma0_linear vh_window))).
End Log.

(** Plausible backscatter: a finite value in [[-40, 5]]. *)
Definition in_range (a : npfloat) : bool :=
  match a with
  | Fin q => bool_decide (db_min <= q) && bool_decide (q <= db_max)
  | _ => false
  end.

(** *** Step 6B: Lee filter (lines 121-131) *)

(** Index into an axis of length [n] extended by reflection about its
    edges, [(d c b a | a b c d | d c b a)], the default boundary mode of
    [scipy.ndimage]. *)
Definition reflect_index (n : nat) (i : Z) : nat :=
  let m := (i mod (2 * Z.of_nat n))%Z in
  if (m <? Z.of_nat n)%Z then Z.to_nat m
  else Z.to_nat (2 * Z.of_nat n - 1 - m).

(** The window of [size=5] centred on [i]: offsets -2 .. 2. *)
Definition window5 (i : nat) : list Z :=
  (fun k => (Z.of_nat i + k)%Z) <$> [-2; -1; 0; 1; 2]%Z.

(** [uniform_filter1d] along a row.  On finite input, which is all the
    filter receives here, the running sum of the library is the sum over
    the window. *)
Definition uniform_filter_row (row : list npfloat) : list npfloat :=
  (fun i =>
     fdiv (fsum ((fun k => default NaN (row !! reflect_index (length row) k))
                   <$> window5 i))
          (Fin (of_Z 5)))
  <$> seq 0 (length row).

(** The same along axis 0: rows are added element by element. *)
Definition row_add (r1 r2 : list npfloat) : list npfloat :=
  zip_with fadd r1 r2.

Definition row_sum (rows : list (list npfloat)) : list npfloat :=
  match rows with
  | [] => []
  | r :: rest => foldl row_add r rest
  end.

Definition uniform_filter_axis0 (g : grid) : grid :=
  (fun i =>
     (fun x => fdiv x (Fin (of_Z 5)))
       <$> row_sum ((fun k => default [] (g !! reflect_index (length g) k))
                      <$> window5 i))
  <$> seq 0 (length g).

(** [uniform_filter(g, size=5)]: axis 0, then axis 1. *)
Definition uniform_filter (g : grid) : grid :=
  uniform_filter_row <$> uniform_filter_axis0 g.

(** [np.mean] and [np.var] over all elements. *)
Definition mean_all (g : grid) : npfloat :=
  fdiv (fsum (ravel g)) (of_nat (length (ravel g))).

Definition var_all (g : grid) : npfloat :=
  let m := mean_all g in
  fdiv (fsum ((fun x => fsquare (fsub x m)) <$> ravel g))
       (of_nat (length (ravel g))).

(** [temp = np.nan_to_num(sigma0_db_window, nan=-40)] *)
Definition temp_of (sigma0_db_window : grid) : grid :=
  gmap (nan_to_num db_min) sigma0_db_window.

(** Lines 123-129, before no-data is put back. *)
Definition lee_unmasked (temp : grid) : grid :=
  let mean := uniform_filter temp in
  let mean_sq := uniform_filter (gmap fsquare temp) in
  let variance := gmap2 fsub mean_sq (gmap fsquare mean) in
  let overall_variance := var_all temp in
  let weight := gmap (fun v => fdiv v (fadd v overall_variance)) variance in
  gmap2 fadd mean (gmap2 fmul weight (gmap2 fsub temp mean)).

(** [a[np.isnan(mask_src)] = np.nan] *)
Definition put_nan (mask_src a : grid) : grid :=
  gmap2 (fun m x => if isnan m then NaN else x) mask_src a.

Definition lee_filtered (sigma0_db_window : grid) : grid :=
  put_nan sigma0_db_window (lee_unmasked (temp_of sigma0_db_window)).

(** *** Step 7: texture of a small patch (lines 166-182) *)

(** [a[r0:r1, c0:c1]]; slices are cut at the array bounds. *)
Definition slice (r0 r1 c0 c1 : nat) (a : grid) : grid :=
  (fun row => take (c1 - c0) (drop c0 row)) <$> take (r1 - r0) (drop r0 a).

(** One step of a running extremum: [b] replaces [a] when it comes
    strictly before it in the order. *)
Definition pick (before : npfloat -> npfloat -> bool) (a b : npfloat) : npfloat :=
  if before b a then b else a.

Definition fmin2 : npfloat -> npfloat -> npfloat := pick flt.
Definition fmax2 : npfloat -> npfloat -> npfloat := pick fgt.

Definition valid (l : list npfloat) : list npfloat :=
  filter (fun x => isnan x = false) l.

(** [np.nanmin], [np.nanmax]: not-a-number is skipped; an array of only
    not-a-number gives not-a-number (with a warning); an empty array
    raises. *)
Definition nan_reduce (op : npfloat -> npfloat -> npfloat) (g : grid)
  : result npfloat :=
  match ravel g with
  | [] => Raise ValueError
  | _ :: _ =>
      match valid (ravel g) with
      | [] => Ok NaN
      | x :: rest => Ok (foldl op x rest)
      end
  end.

Definition nanmin : grid -> result npfloat := nan_reduce fmin2.
Definition nanmax : grid -> result npfloat := nan_reduce fmax2.

(** Round to the nearest integer, halves to the even one ([np.rint]). *)
Definition rint (q : Qc) : Z :=
  let f := Qfloor q in
  let r := q - of_Z f in
  if bool_decide (r < Q2Qc (1 # 2)) then f
  else if bool_decide (Q2Qc (1 # 2) < r) then (f + 1)%Z
  else if Z.even f then f else (f + 1)%Z.

Definition clip (lo hi z : Z) : Z := Z.max lo (Z.min hi z).

(** [skimage.util.img_as_ubyte] on a float image: values outside [-1, 1]
    are refused, the others are multiplied by 255, rounded and clipped to
    0 .. 255.  The script converts the output of [np.nan_to_num] only, which
    is finite; the library does not define the level of a not-a-number, and
    the embedding refuses it. *)
Definition ubyte_of (a : npfloat) : result Z :=
  match a with
  | Fin q =>
      if bool_decide (q < - 1) || bool_decide (1 < q) then Raise ValueError
      else Ok (clip 0 255 (rint (q * of_Z 255)))
  | _ => Raise ValueError
  end.

Definition img_as_ubyte (a : grid) : result (list (list Z)) :=
  mapM (mapM ubyte_of) a.

(** [graycomatrix(img, distances=[1], angles=[0], levels=256,
    symmetric=True, normed=True)]: pairs of horizontal neighbours. *)
Definition neighbours (img : list (list Z)) : list (Z * Z) :=
  row ← img; zip row (tail row).

Definition cooccurrence (img : list (list Z)) (i j : Z) : Z :=
  Z.of_nat (length (filter (fun p => p = (i, j)) (neighbours img))).

Definition glcm_sym (img : list (list Z)) (i j : Z) : Z :=
  (cooccurrence img i j + cooccurrence img j i)%Z.

Definition levels : list Z := Z.of_nat <$> seq 0 256.

Definition Qc_sum (l : list Qc) : Qc := foldr Qcplus 0 l.

Definition glcm_total (img : list (list Z)) : Z :=
  foldr Z.add 0%Z (i ← levels; (glcm_sym img i) <$> levels).

(** Normalization by the total count, a zero total being replaced by 1. *)
Definition glcm_denominator (img : list (list Z)) : Qc :=
  let total := glcm_total img in
  of_Z (if bool_decide (total = 0%Z) then 1 else total).

(** [graycoprops(glcm, 'contrast')[0, 0]]: sum of [P(i,j) * (i - j)^2]. *)
Definition contrast_of (img : list (list Z)) : Qc :=
  let denom := glcm_denominator img in
  Qc_sum (i ← levels;
          (fun j => of_Z (glcm_sym img i j) / denom * of_Z ((i - j) * (i - j)))
            <$> levels).

(** [norm_patch = (patch - nanmin(patch)) / (nanmax(patch) - nanmin(patch))] *)
Definition norm_patch (patch : grid) : result grid :=
  lo ← nanmin patch;
  hi ← nanmax patch;
  Ok (gmap (fun x => fdiv (fsub x lo) (fsub hi lo)) patch).

(** [patch_uint8 = img_as_ubyte(np.nan_to_num(norm_patch))] *)
Definition patch_uint8 (patch : grid) : result (list (list Z)) :=
  n ← norm_patch patch;
  img_as_ubyte (gmap (nan_to_num 0) n).

(** The texture step on the sub-window: quantized patch and contrast. *)
Definition texture_patch (patch : grid) : result (list (list Z) * Qc) :=
  img ← patch_uint8 patch;
  Ok (img, contrast_of img).

(** [patch = lee_filtered[1000:1200, 1000:1200]] *)
Definition texture (lee : grid) : result (list (list Z) * Qc) :=
  texture_patch (slice 1000 1200 1000 1200 lee).

(** The texture normalization as the specification words it: no-data is
    replaced by 0 first, then the patch is normalized with the minimum and
    maximum of the patch so obtained, then quantized. *)
Definition patch_uint8_spec (patch : grid) : result (list (list Z)) :=
  let filled := gmap (nan_to_num 0) patch in
  n ← norm_patch filled;
  img_as_ubyte n.

(** A finite element [a] of a raster next to a finite element [b] of
    another with [a * a <= b]: what relates the raster of local means to
    the raster of local means of squares. *)
Definition square_below (x y : npfloat) : Prop :=
  exists a b, x = Fin a /\ y = Fin b /\ a * a <= b.

(** A raster with two different elements. *)
Definition not_constant (g : grid) : Prop :=
  exists x y, x ∈ ravel g /\ y ∈ ravel g /\ x <> y.

(** Quantized level of one element of the patch once the bounds
    [lo < hi] of the normalization are known. *)
Definition level (lo hi : Qc) (x : npfloat) : Z :=
  match x with
  | Fin q => clip 0 255 (rint ((q - lo) / (hi - lo) * of_Z 255))
  | _ => 0%Z
  end.

(** Two decibel values are interchangeable for the masking when they are
    both implausible, or both plausible and equal. *)
Definition same_after_mask (a b : npfloat) : Prop :=
  in_range a = in_range b /\ (in_range a = true -> a = b).

(** A stand-in for [log10] in examples: the decade of the argument, i.e.
    [log10] rounded down, for arguments between 1e-20 and 1e20. *)
Definition pow10 (k : Z) : Qc :=
  if (0 <=? k)%Z then of_Z (10 ^ k) else / of_Z (10 ^ (- k)).

Definition decade (q : Qc) : Z :=
  (Z.of_nat (length (filter (fun k => (pow10 k <= q)%Qc) (seqZ (-20) 41))) - 21)%Z.

Definition log10_floor (x : npfloat) : npfloat :=
  match x with
  | Fin q =>
      if bool_decide (q < 0) then NaN
      else if bool_decide (q = 0) then Inf true
      else Fin (of_Z (decade q))
  | Inf false => Inf false
  | _ => NaN
  end.

End Radar.

(** ** Optical pipeline ([preprocessing/Sentinel-2_Processing.py]) *)

Module Optical.

Definition scaling_factor : Qc := of_Z 10000.
Definition epsilon : Qc := / of_Z 10000000000.          (* 1e-10 *)

(** Element-wise operations on two arrays of different shapes raise
    (broadcasting of axes of length 1 is left out). *)
Definition elementwise {A B C} (f : A -> B -> C)
    (a : list (list A)) (b : list (list B)) : result (list (list C)) :=
  if decide (shape_of a = shape_of b)
  then Ok (zip_with (zip_with f) a b)
  else Raise ValueError.

(** [red = red / 10000.0] *)
Definition reflectance (band : grid) : grid :=
  gmap (fun x => fdiv x (Fin scaling_factor)) band.

(** [(nir - red) / (nir + red + 1e-10)] *)
Definition ndvi_px (nir red : npfloat) : npfloat :=
  fdiv (fsub nir red) (fadd (fadd nir red) (Fin epsilon)).

Definition ndvi (nir red : grid) : result grid :=
  elementwise ndvi_px nir red.

(** Scene classes masked out: cloud shadow, medium and high cloud, thin
    cirrus, snow or ice. *)
Definition excluded : list npfloat :=
  (fun z => Fin (of_Z z)) <$> [3; 8; 9; 10; 11]%Z.

(** [np.isin(x, codes)] on one element. *)
Definition isin (codes : list npfloat) (x : npfloat) : bool :=
  existsb (feqb x) codes.

(** [cloud_mask = np.isin(scl_resampled, [3, 8, 9, 10, 11])] *)
Definition cloud_mask (scl_resampled : grid) : list (list bool) :=
  fmap (M:=list) (fmap (M:=list) (isin excluded)) scl_resampled.

(** [ndvi_masked = np.where(cloud_mask, np.nan, ndvi)] *)
Definition ndvi_masked (cloud_mask : list (list bool)) (ndvi : grid)
  : result grid :=
  elementwise (fun (m : bool) v => if m then NaN else v) cloud_mask ndvi.

(** Steps 2 and 3 on the windows read from the product. *)
Definition vegetation_index (red nir : grid) : result grid :=
  let red := reflectance red in
  let nir := reflectance nir in
  ndvi nir red.

(** Steps 2 to 5; [scl_resampled] is the classification window after the
    nearest-neighbour [resize] to the shape of the index.  Both rasters
    are written out. *)
Definition process (red nir scl_resampled : grid) : result (grid * grid) :=
  ndvi ← vegetation_index red nir;
  ndvi_masked ← ndvi_masked (cloud_mask scl_resampled) ndvi;
  Ok (ndvi, ndvi_masked).

(** A finite value between -1 and 1. *)
Definition unit_range (x : npfloat) : Prop :=
  exists q, x = Fin q /\ - 1 <= q /\ q <= 1.

End Optical.

(** ** More of the radar script: views of the rasters *)

Module RadarViews.
Import Radar.

(** [a[::k]]: the elements at positions 0, k, 2k, ... *)
Definition stride {A} (k : nat) (l : list A) : list A :=
  omap (fun i => l !! (i * k)%nat) (seq 0 ((length l + k - 1) / k)).

(** [factor = 5]; [sigma_small = sigma0_db[::factor, ::factor]]
    (lines 82-84). *)
Definition factor : nat := 5.

Definition sigma_small (sigma0_db : grid) : grid :=
  stride factor <$> stride factor sigma0_db.

(** The zoomed views of lines 141-142. *)
Definition patch_before (sigma0_db_window : grid) : grid :=
  slice 1000 1500 1000 1500 sigma0_db_window.

Definition patch_after (lee_filtered : grid) : grid :=
  slice 1000 1500 1000 1500 lee_filtered.

(** [img[i, j]] on a quantized image. *)
Definition pixel (img : list (list Z)) (i j : nat) : option Z :=
  row ← img !! i; row !! j.

(** A finite value between two bounds. *)
Definition within (lo hi : Qc) (x : npfloat) : Prop :=
  exists q, x = Fin q /\ lo <= q /\ q <= hi.

(** No-data or a plausible backscatter. *)
Definition nodata_or_plausible (x : npfloat) : Prop :=
  x = NaN \/ within db_min db_max x.

End RadarViews.

(** ** Download of a product ([ingestion/Data_Ingestion.py], lines 153-178) *)

Module Download.
Section Bytes.

Variable byte : Type.

(** The loop of lines 171-176 on the chunks that [iter_content] yields:
    a chunk that is not empty is appended to the file. *)
Definition write_chunk (file chunk : list byte) : list byte :=
  match chunk with
  | [] => file
  | _ :: _ => file ++ chunk
  end.

Definition written (chunks : list (list byte)) : list byte :=
  foldl write_chunk [] chunks.

End Bytes.
End Download.

(** ** The pipeline runner ([main.py]) *)

Module Runner.

Inductive script : Type := Ingestion | Sentinel1 | Sentinel2.

(** What [main] does to the operating system, in order:
    [subprocess.run], [subprocess.Popen], [Popen.wait]. *)
Inductive action : Type :=
  | Run (s : script)
  | Spawn (s : script)
  | Wait (s : script).

(** [main] returns, or raises [Exception(f"{script_name} failed.")]. *)
Inductive outcome : Type :=
  | Completed
  | Failed (s : script).

#[global] Instance script_eq_dec : EqDecision script.
Proof. solve_decision. Defined.

#[global] Instance action_eq_dec : EqDecision action.
Proof. solve_decision. Defined.

Section ReturnCodes.

(** The return code each script would give. *)
Variable returncode : script -> Z.

(** [run_script]: runs the script to its end and raises when its return
    code is not 0.  The log of actions is threaded through. *)
Definition run_script (s : script) (log : list action)
  : list action * option script :=
  let log := log ++ [Run s] in
  if bool_decide (returncode s <> 0%Z) then (log, Some s) else (log, None).

Definition main : list action * outcome :=
  match run_script Ingestion [] with
  | (log, Some s) => (log, Failed s)
  | (log, None) =>
      let log := log ++ [Spawn Sentinel1] in
      match run_script Sentinel2 log with
      | (log, Some s) => (log, Failed s)
      | (log, None) =>
          let log := log ++ [Wait Sentinel1] in
          if bool_decide (returncode Sentinel1 <> 0%Z)
          then (log, Failed Sentinel1)
          else (log, Completed)
      end
  end.

End ReturnCodes.
End Runner.

(* ===================================================================== *)
(** * Part II.  Properties                                                *)
(* ===================================================================== *)

(** ** Bridging [Qc] and [Q] for arithmetic automation *)

Lemma this_plus (a b : Qc) : (this (a + b) == this a + this b)%Q.
Proof. apply Qred_correct. Qed.

Lemma this_mult (a b : Qc) : (this (a * b) == this a * this b)%Q.
Proof. apply Qred_correct. Qed.

Lemma this_opp (a : Qc) : (this (- a) == - this a)%Q.
Proof. apply Qred_correct. Qed.

Lemma this_minus (a b : Qc) : (this (a - b) == this a - this b)%Q.
Proof. unfold Qcminus. rewrite this_plus, this_opp. reflexivity. Qed.

Lemma this_inv (a : Qc) : (this (/ a) == / this a)%Q.
Proof. apply Qred_correct. Qed.

Lemma this_div (a b : Qc) : (this (a / b) == this a / this b)%Q.
Proof. unfold Qcdiv. rewrite this_mult, this_inv. reflexivity. Qed.

Lemma this_Q2Qc (q : Q) : (this (Q2Qc q) == q)%Q.
Proof. apply Qred_correct. Qed.

Lemma this_of_Z (z : Z) : (this (of_Z z) == inject_Z z)%Q.
Proof. apply Qred_correct. Qed.

Lemma Qc_eq_this (a b : Qc) : a = b <-> (this a == this b)%Q.
Proof. split; [intros ->; reflexivity | apply Qc_is_canon]. Qed.

(** Turns a goal and its hypotheses on [Qc] into ones on [Q]. *)
Ltac qc2q :=
  repeat match goal with
  | H : @eq Qc _ _ |- _ => apply Qc_eq_this in H
  | H : ~ @eq Qc _ _ |- _ => rewrite Qc_eq_this in H
  end;
  rewrite ?Qc_eq_this;
  unfold Qclt, Qcle in *;
  repeat (rewrite ?this_plus, ?this_mult, ?this_minus, ?this_opp, ?this_div,
            ?this_inv, ?this_of_Z, ?this_Q2Qc in * );
  change (this 0) with 0%Q in *.

(** ** Selection of the best overlapping pair *)

Module SelectorProofs.
Import Selector.
Section Geometry.

Context {Product Geometry : Type}.
Context (shape : Product -> Geometry).
Context (intersection : Geometry -> Geometry -> Geometry).
Context (is_empty : Geometry -> bool).
Context (area : Geometry -> Qc).

(** What the polygon library guarantees: an empty geometry has area 0. *)
Hypothesis empty_area : forall g, is_empty g = true -> area g = 0.

Abbreviation body :=
  (Selector.body Product Geometry shape intersection is_empty area).
Abbreviation inner_loop :=
  (Selector.inner_loop Product Geometry shape intersection is_empty area).
Abbreviation outer_loop :=
  (Selector.outer_loop Product Geometry shape intersection is_empty area).
Abbreviation run_pairs :=
  (Selector.run_pairs Product Geometry shape intersection is_empty area).
Abbreviation selectBestPair :=
  (Selector.selectBestPair Product Geometry shape intersection is_empty area).
Abbreviation score :=
  (Selector.score Product Geometry shape intersection area).
Abbreviation inter_area :=
  (Selector.inter_area Product Geometry shape intersection area).
Abbreviation update :=
  (Selector.update Product Geometry shape intersection area).
Abbreviation iteration_order :=
  (Selector.iteration_order Product).
Abbreviation state :=
  (Selector.state Product).

Implicit Types (p q : Product * Product) (st : state).

Lemma elem_of_iteration_order p data_s1 data_s2 :
  p ∈ iteration_order data_s1 data_s2 <-> p.1 ∈ data_s1 /\ p.2 ∈ data_s2.
Proof.
  unfold Selector.iteration_order. rewrite list_elem_of_bind. split.
  - intros (s1 & Hp & Hs1). apply list_elem_of_fmap in Hp as (s2 & -> & Hs2).
    done.
  - intros [H1 H2]. exists p.1. split; [|done].
    apply list_elem_of_fmap. exists p.2. by destruct p.
Qed.

Lemma inner_loop_run s1 data_s2 st :
  inner_loop s1 data_s2 st = run_pairs (pair s1 <$> data_s2) st.
Proof.
  revert st. induction data_s2 as [|s2 rest IH]; intros st; simpl; [done|].
  destruct (body s1 s2 st); simpl; auto.
Qed.

Lemma run_pairs_app l1 l2 st :
  run_pairs (l1 ++ l2) st = st' ← run_pairs l1 st; run_pairs l2 st'.
Proof.
  revert st. induction l1 as [|p l1 IH]; intros st; simpl; [done|].
  destruct (body p.1 p.2 st); simpl; auto.
Qed.

Lemma outer_loop_run data_s1 data_s2 st :
  outer_loop data_s1 data_s2 st = run_pairs (iteration_order data_s1 data_s2) st.
Proof.
  revert st. induction data_s1 as [|s1 rest IH]; intros st; [done|].
  cbn [Selector.outer_loop]. unfold Selector.iteration_order.
  rewrite bind_cons, run_pairs_app, inner_loop_run.
  destruct (run_pairs (pair s1 <$> data_s2) st); simpl; [apply IH | done].
Qed.

Lemma score_pos p :
  0 < area (shape p.2) -> (0 < score p <-> 0 < inter_area p).
Proof.
  unfold Selector.score, Selector.inter_area. intros Hpos.
  set (a := area (intersection (shape p.1) (shape p.2))).
  set (b := area (shape p.2)) in *. clearbody a b.
  qc2q. change (inject_Z 100) with (100 # 1)%Q.
  assert (H1 : (0 < / this b)%Q) by (by apply Qinv_lt_0_compat).
  unfold Qdiv. split; intros H.
  - destruct (Qlt_le_dec 0 (this a)) as [|Hle]; [done|].
    pose proof (Qmult_le_compat_r _ _ (/ this b) Hle (Qlt_le_weak _ _ H1)) as H2.
    rewrite Qmult_0_l in H2. lra.
  - assert (0 < this a * / this b)%Q; [|lra].
    by apply Qmult_lt_0_compat.
Qed.

Lemma body_update s1 s2 st :
  0 < area (shape s2) -> 0 <= st.2 ->
  body s1 s2 st = Ok (update st (s1, s2)).
Proof.
  intros Hpos Hst. unfold Selector.body, Selector.update, Selector.pydiv.
  destruct (is_empty (intersection (shape s1) (shape s2))) eqn:He; simpl.
  - assert (Hs : score (s1, s2) = 0).
    { unfold Selector.score. simpl. rewrite (empty_area _ He).
      qc2q. unfold Qdiv. ring. }
    rewrite Hs, bool_decide_eq_false_2; [done|]. by apply Qcle_not_lt.
  - rewrite bool_decide_eq_false_2.
    + unfold Selector.score. simpl. by case_bool_decide.
    + intros H0. rewrite H0 in Hpos. by apply Qclt_not_eq in Hpos.
Qed.

Lemma update_lt st p : st.2 < score p -> update st p = (Some p, score p).
Proof. intros H. unfold Selector.update. by rewrite bool_decide_eq_true_2. Qed.

Lemma update_ge st p : ~ st.2 < score p -> update st p = st.
Proof. intros H. unfold Selector.update. by rewrite bool_decide_eq_false_2. Qed.

Lemma update_mono st p : st.2 <= (update st p).2.
Proof.
  unfold Selector.update. case_bool_decide; simpl.
  - by apply Qclt_le_weak.
  - apply Qcle_refl.
Qed.

Lemma run_pairs_foldl l st :
  Forall (fun p => 0 < area (shape p.2)) l -> 0 <= st.2 ->
  run_pairs l st = Ok (foldl update st l).
Proof.
  intros Hl. revert st. induction Hl as [|p l Hp Hl IH]; intros st Hst; [done|].
  simpl. rewrite body_update by done. destruct p as [s1 s2]. simpl.
  apply IH. eapply Qcle_trans; [exact Hst|apply update_mono].
Qed.

(** The pass keeps the first combination that reaches the greatest score
    above the initial threshold. *)
Lemma foldl_update_first_max l st :
  let st' := foldl update st l in
  (st' = st /\ forall q, q ∈ l -> score q <= st.2) \/
  (exists before best after,
      l = before ++ best :: after /\
      st' = (Some best, score best) /\
      st.2 < score best /\
      (forall q, q ∈ before -> score q < score best) /\
      (forall q, q ∈ after -> score q <= score best)).
Proof.
  revert st. induction l as [|p l IH]; intros st; cbn [foldl].
  { left. split; [done|]. intros q Hq. by apply elem_of_nil in Hq. }
  specialize (IH (update st p)). cbv zeta in IH.
  destruct (decide (st.2 < score p)) as [Hlt|Hge].
  - rewrite (update_lt _ _ Hlt) in *. simpl in IH. right.
    destruct IH as [[Heq Hall] | (before & best & after & -> & Heq & Hgt & Hb & Ha)].
    + exists [], p, l. split_and!; try done.
      intros q Hq. by apply elem_of_nil in Hq.
    + exists (p :: before), best, after. split_and!; try done.
      * by eapply Qclt_trans.
      * intros q [->|Hq]%elem_of_cons; auto.
  - rewrite (update_ge _ _ Hge) in *. apply Qcnot_lt_le in Hge.
    destruct IH as [[Heq Hall] | (before & best & after & -> & Heq & Hgt & Hb & Ha)].
    + left. split; [done|]. intros q [->|Hq]%elem_of_cons; auto.
    + right. exists (p :: before), best, after. split_and!; try done.
      intros q [->|Hq]%elem_of_cons; auto. by eapply Qcle_lt_trans.
Qed.

Lemma iteration_order_areas data_s1 data_s2 :
  Forall (fun s2 => 0 < area (shape s2)) data_s2 ->
  Forall (fun p => 0 < area (shape p.2)) (iteration_order data_s1 data_s2).
Proof.
  intros H. apply list.Forall_forall. intros p [_ Hp]%elem_of_iteration_order.
  rewrite list.Forall_forall in H. by apply H.
Qed.

(** Result of the whole selection in terms of the pure pass. *)
Lemma selectBestPair_foldl data_s1 data_s2 :
  Forall (fun s2 => 0 < area (shape s2)) data_s2 ->
  selectBestPair data_s1 data_s2 =
    match (foldl update (Selector.init Product)
                 (iteration_order data_s1 data_s2)).1 with
    | None => Raise NoOverlapFound
    | Some best => Ok best
    end.
Proof.
  intros H. unfold Selector.selectBestPair.
  rewrite outer_loop_run, run_pairs_foldl; [done| |apply Qcle_refl].
  by apply iteration_order_areas.
Qed.

(** C1 (amended): when every optical footprint has a positive area and
    some combination has a positive intersection area, the selection
    returns a pair whose overlap score is at least the score of every
    combination, and every combination visited before it (outer loop over
    radar candidates, inner loop over optical candidates) has a strictly
    smaller score, so that on ties the first one is kept. *)
Theorem selectBestPair_maximum data_s1 data_s2 :
  Forall (fun s2 => 0 < area (shape s2)) data_s2 ->
  (exists s1 s2, s1 ∈ data_s1 /\ s2 ∈ data_s2 /\
                 0 < area (intersection (shape s1) (shape s2))) ->
  exists best before after,
    selectBestPair data_s1 data_s2 = Ok best /\
    iteration_order data_s1 data_s2 = before ++ best :: after /\
    (forall q, q ∈ before -> score q < score best) /\
    (forall q, q ∈ after -> score q <= score best).
Proof.
  intros Hareas (s1 & s2 & Hs1 & Hs2 & Hpos).
  rewrite selectBestPair_foldl by done.
  destruct (foldl_update_first_max (iteration_order data_s1 data_s2)
              (Selector.init Product))
    as [[_ Hall] | (before & best & after & Hsplit & Heq & _ & Hb & Ha)].
  - exfalso. specialize (Hall (s1, s2)). simpl in Hall.
    assert (Hin : (s1, s2) ∈ iteration_order data_s1 data_s2)
      by (by apply elem_of_iteration_order).
    apply Hall in Hin. apply Qcle_not_lt in Hin. apply Hin.
    apply score_pos; simpl; [|done].
    rewrite list.Forall_forall in Hareas. by apply Hareas.
  - exists best, before, after. rewrite Heq. done.
Qed.

(** C2 (amended): when every optical footprint has a positive area, the
    selection raises [NoOverlapFound] exactly when no combination has a
    positive intersection area, in particular when a candidate list is
    empty; a selected pair always has a non-empty intersection of positive
    area. *)
Theorem selectBestPair_no_overlap data_s1 data_s2 :
  Forall (fun s2 => 0 < area (shape s2)) data_s2 ->
  (selectBestPair data_s1 data_s2 = Raise NoOverlapFound <->
     forall p, p ∈ iteration_order data_s1 data_s2 -> ~ 0 < inter_area p) /\
  (data_s1 = [] \/ data_s2 = [] ->
     selectBestPair data_s1 data_s2 = Raise NoOverlapFound) /\
  (forall best, selectBestPair data_s1 data_s2 = Ok best ->
     best ∈ iteration_order data_s1 data_s2 /\
     is_empty (intersection (shape best.1) (shape best.2)) = false /\
     0 < inter_area best).
Proof.
  intros Hareas. rewrite selectBestPair_foldl by done.
  pose proof (iteration_order_areas data_s1 data_s2 Hareas) as Hall'.
  rewrite list.Forall_forall in Hall'.
  assert (Hiff :
    match (foldl update (Selector.init Product)
                 (iteration_order data_s1 data_s2)).1 with
    | None => Raise NoOverlapFound
    | Some best => Ok best
    end = Raise NoOverlapFound <->
    forall p, p ∈ iteration_order data_s1 data_s2 -> ~ 0 < inter_area p).
  { destruct (foldl_update_first_max (iteration_order data_s1 data_s2)
                (Selector.init Product))
      as [[Heq Hall] | (before & best & after & Hsplit & Heq & Hgt & _)];
      rewrite Heq; simpl.
    - split; [intros _|done]. intros p Hp Hpos.
      apply (Qcle_not_lt _ _ (Hall p Hp)). apply score_pos; auto.
    - split; [done|]. intros Hnone. exfalso.
      assert (Hin : best ∈ iteration_order data_s1 data_s2).
      { rewrite Hsplit. apply elem_of_app. right. apply elem_of_cons. by left. }
      apply (Hnone best Hin). apply score_pos; auto. }
  split; [exact Hiff|]. split.
  - intros Hempty. apply Hiff. intros p [H1 H2]%elem_of_iteration_order.
    destruct Hempty as [-> | ->]; by apply elem_of_nil in H1 || apply elem_of_nil in H2.
  - intros best Hbest.
    destruct (foldl_update_first_max (iteration_order data_s1 data_s2)
                (Selector.init Product))
      as [[Heq Hall] | (before & best' & after & Hsplit & Heq & Hgt & _)];
      rewrite Heq in Hbest; simpl in Hbest; [done|].
    injection Hbest as <-.
    assert (Hin : best' ∈ iteration_order data_s1 data_s2).
    { rewrite Hsplit. apply elem_of_app. right. apply elem_of_cons. by left. }
    assert (Hpos : 0 < inter_area best') by (apply score_pos; auto).
    repeat split; [done| |done].
    destruct (is_empty (intersection (shape best'.1) (shape best'.2))) eqn:He; [|done].
    unfold Selector.inter_area in Hpos. rewrite (empty_area _ He) in Hpos.
    by apply Qclt_not_eq in Hpos.
Qed.

End Geometry.

(** The rectangle geometry satisfies what is asked of the polygon library. *)
Lemma rect_empty_area (g : Rect.geometry) :
  Rect.is_empty g = true -> Rect.area g = 0.
Proof. by destruct g. Qed.

Lemma selectBestPair_maximum_witness :
  exists best before after,
    Rect.select [Rect.radar_a; Rect.radar_b] [Rect.optical_a; Rect.optical_b]
      = Ok best /\
    Selector.iteration_order Rect.rect [Rect.radar_a; Rect.radar_b]
                                       [Rect.optical_a; Rect.optical_b]
      = before ++ best :: after /\
    (forall q, q ∈ before ->
       Selector.score _ _ Rect.shape Rect.intersection Rect.area q
       < Selector.score _ _ Rect.shape Rect.intersection Rect.area best) /\
    (forall q, q ∈ after ->
       Selector.score _ _ Rect.shape Rect.intersection Rect.area q
       <= Selector.score _ _ Rect.shape Rect.intersection Rect.area best).
Proof.
  apply (selectBestPair_maximum Rect.shape Rect.intersection Rect.is_empty
           Rect.area rect_empty_area).
  - repeat constructor.
  - exists Rect.radar_a, Rect.optical_a. split_and!; [repeat constructor..|reflexivity].
Defined.

Lemma selectBestPair_no_overlap_witness :
  (Rect.select [Rect.radar_b] [Rect.optical_b] = Raise NoOverlapFound <->
     forall p,
       p ∈ Selector.iteration_order Rect.rect [Rect.radar_b] [Rect.optical_b] ->
       ~ 0 < Selector.inter_area _ _ Rect.shape Rect.intersection Rect.area p) /\
  ([Rect.radar_b] = [] \/ [Rect.optical_b] = [] ->
     Rect.select [Rect.radar_b] [Rect.optical_b] = Raise NoOverlapFound) /\
  (forall best, Rect.select [Rect.radar_b] [Rect.optical_b] = Ok best ->
     best ∈ Selector.iteration_order Rect.rect [Rect.radar_b] [Rect.optical_b] /\
     Rect.is_empty (Rect.intersection (Rect.shape best.1) (Rect.shape best.2))
       = false /\
     0 < Selector.inter_area _ _ Rect.shape Rect.intersection Rect.area best).
Proof.
  apply (selectBestPair_no_overlap Rect.shape Rect.intersection Rect.is_empty
           Rect.area rect_empty_area).
  repeat constructor.
Defined.

(** C1 (the claim fails): the first radar scene overlaps the first optical
    scene on a positive area, and with a second optical footprint of area
    0 in the list the selection returns no pair: the division of line 133
    raises. *)
Lemma selectBestPair_raises_despite_overlap :
  Rect.radar_a ∈ [Rect.radar_a] /\
  Rect.optical_a ∈ [Rect.optical_a; Rect.optical_flat] /\
  0 < Rect.area (Rect.intersection (Rect.shape Rect.radar_a)
                                   (Rect.shape Rect.optical_a)) /\
  Rect.select [Rect.radar_a] [Rect.optical_a; Rect.optical_flat]
  = Raise ZeroDivisionError.
Proof.
  split_and!; [by left | by left | by vm_compute | by vm_compute].
Qed.

(** C2 (the claim fails): with the flat optical footprint alone no
    combination has a positive intersection area, and the selection does
    not raise [NoOverlapFound]: it raises [ZeroDivisionError]. *)
Lemma selectBestPair_zero_area_not_no_overlap :
  (forall p,
     p ∈ Selector.iteration_order Rect.rect [Rect.radar_a] [Rect.optical_flat] ->
     ~ 0 < Selector.inter_area _ _ Rect.shape Rect.intersection Rect.area p) /\
  Rect.select [Rect.radar_a] [Rect.optical_flat] = Raise ZeroDivisionError /\
  Rect.select [Rect.radar_a] [Rect.optical_flat] <> Raise NoOverlapFound.
Proof.
  split_and!.
  - intros p Hp. apply list_elem_of_In in Hp. simpl in Hp.
    destruct Hp as [<- | []]. by vm_compute.
  - by vm_compute.
  - by vm_compute.
Qed.

(** The run of the example: the first combination wins the tie at 50. *)
Example select_example :
  Rect.select [Rect.radar_a; Rect.radar_b] [Rect.optical_a; Rect.optical_b]
  = Ok (Rect.radar_a, Rect.optical_a).
Proof. by vm_compute. Qed.

Example select_disjoint :
  Rect.select [Rect.radar_b] [Rect.optical_b] = Raise NoOverlapFound.
Proof. by vm_compute. Qed.

End SelectorProofs.

(** ** Arrays *)

Section Grids.

Lemma gmap_compose (f g : npfloat -> npfloat) (a : grid) :
  gmap f (gmap g a) = gmap (f ∘ g) a.
Proof.
  unfold gmap. rewrite <- list_fmap_compose. apply list_fmap_ext.
  intros _ row _. simpl. by rewrite <- list_fmap_compose.
Qed.

Lemma gmap_ext (f g : npfloat -> npfloat) (a : grid) :
  (forall x, f x = g x) -> gmap f a = gmap g a.
Proof.
  intros H. unfold gmap. apply list_fmap_ext. intros _ row _.
  apply list_fmap_ext. auto.
Qed.

Lemma gmap_full (f : npfloat -> npfloat) rows cols a :
  gmap f (full rows cols a) = full rows cols (f a).
Proof. unfold gmap, full. by rewrite !fmap_replicate. Qed.

Lemma gmap2_full (f : npfloat -> npfloat -> npfloat) rows cols a b :
  gmap2 f (full rows cols a) (full rows cols b) = full rows cols (f a b).
Proof. unfold gmap2, full. by rewrite !zip_with_replicate. Qed.

Lemma Forall_gmap (P : npfloat -> Prop) (f : npfloat -> npfloat) (a : grid) :
  (forall x, P (f x)) -> Forall (Forall P) (gmap f a).
Proof.
  intros H. unfold gmap. apply Forall_fmap, Forall_true. intros row. simpl.
  apply Forall_fmap, Forall_true. intros x. apply H.
Qed.

Lemma elem_of_ravel (x : npfloat) (g : grid) :
  x ∈ ravel g <-> exists row, row ∈ g /\ x ∈ row.
Proof.
  unfold ravel. induction g as [|r g IH]; simpl.
  - split; [by intros ?%elem_of_nil | by intros (? & ?%elem_of_nil & _)].
  - rewrite elem_of_app, IH. split.
    + intros [H | (row & Hrow & Hx)]; [exists r | exists row]; split; auto;
        by constructor.
    + intros (row & [-> | Hrow]%elem_of_cons & Hx); eauto.
Qed.

Lemma mapM_Ok {A B} (f : A -> result B) (h : A -> B) (l : list A) :
  (forall x, x ∈ l -> f x = Ok (h x)) -> mapM f l = Ok (h <$> l).
Proof.
  induction l as [|x l IH]; intros H; [done|].
  cbn [mapM]. rewrite (H x) by (by left). simpl.
  rewrite IH; [done|]. intros y Hy. apply H. by right.
Qed.

Lemma Forall_zip_with {A B C} (PA : A -> Prop) (PB : B -> Prop) (PC : C -> Prop)
    (f : A -> B -> C) (l : list A) (k : list B) :
  (forall x y, PA x -> PB y -> PC (f x y)) ->
  Forall PA l -> Forall PB k -> Forall PC (zip_with f l k).
Proof.
  intros Hf Hl. revert k. induction Hl as [|x l Hx _ IH]; intros k Hk; [done|].
  destruct Hk as [|y k Hy Hk]; [done|]. simpl. constructor; auto.
Qed.

Lemma shape_of_zip_with {A B C} (f : A -> B -> C)
    (a : list (list A)) (b : list (list B)) :
  shape_of a = shape_of b -> shape_of (zip_with (zip_with f) a b) = shape_of b.
Proof.
  unfold shape_of. revert b. induction a as [|r a IH]; intros [|s b]; try done.
  simpl. intros [= Hr Hab]. f_equal; [|by apply IH].
  rewrite length_zip_with. lia.
Qed.

Lemma shape_of_gmap (f : npfloat -> npfloat) (a : grid) :
  shape_of (gmap f a) = shape_of a.
Proof.
  unfold shape_of, gmap. rewrite <- list_fmap_compose.
  apply list_fmap_ext. intros _ row _. simpl. apply length_fmap.
Qed.

Lemma gget_zip_with {A B} (f : A -> B -> npfloat)
    (a : list (list A)) (b : list (list B)) (i j : nat) :
  gget (zip_with (zip_with f) a b) i j
  = ra ← a !! i; rb ← b !! i; x ← ra !! j; y ← rb !! j; Some (f x y).
Proof.
  unfold gget. rewrite lookup_zip_with.
  destruct (a !! i) as [ra|]; simpl; [|done].
  destruct (b !! i) as [rb|]; simpl; [|done].
  by rewrite lookup_zip_with.
Qed.

Lemma shape_of_gget {A B} (a : list (list A)) (b : list (list B)) (i j : nat) :
  shape_of a = shape_of b ->
  is_Some (a !! i ≫= (.!! j)) -> is_Some (b !! i ≫= (.!! j)).
Proof.
  intros Hs [x Hx].
  destruct (a !! i) as [ra|] eqn:Ha; simpl in Hx; [|done].
  assert (Hl : shape_of a !! i = Some (length ra)).
  { unfold shape_of. by rewrite list_lookup_fmap, Ha. }
  rewrite Hs in Hl. unfold shape_of in Hl. rewrite list_lookup_fmap in Hl.
  destruct (b !! i) as [rb|]; simpl in *; [|done].
  injection Hl as Hl. apply lookup_lt_is_Some. rewrite Hl.
  apply lookup_lt_is_Some. eauto.
Qed.

Lemma Forall_gget (P : npfloat -> Prop) (g : grid) (i j : nat) (x : npfloat) :
  Forall (Forall P) g -> gget g i j = Some x -> P x.
Proof.
  intros Hg Hx. unfold gget in Hx.
  destruct (g !! i) as [row|] eqn:Hrow; simpl in Hx; [|done].
  eapply Forall_lookup_1; [|exact Hx]. by eapply Forall_lookup_1.
Qed.

Lemma mapM_fmap {A B C} (k : B -> result C) (f : A -> B) (l : list A) :
  mapM k (f <$> l) = mapM (k ∘ f) l.
Proof.
  induction l as [|x l IH]; [done|].
  rewrite fmap_cons. cbn [mapM]. by rewrite IH.
Qed.

End Grids.

(** ** Radar pipeline *)

Module RadarProofs.
Import Radar.

(** The two masking passes keep the plausible values and nothing else. *)
Lemma mask_px (a : npfloat) :
  (let b := if flt a (Fin db_min) then NaN else a in
   if fgt b (Fin db_max) then NaN else b)
  = if in_range a then a else NaN.
Proof.
  destruct a as [|[]|q]; simpl; try done.
  unfold fgt. case_bool_decide as H1; simpl.
  - rewrite bool_decide_eq_false_2; [done|]. by apply Qclt_not_le.
  - apply Qcnot_lt_le in H1. rewrite (bool_decide_eq_true_2 _ H1). simpl.
    case_bool_decide as H2.
    + rewrite bool_decide_eq_false_2; [done|]. by apply Qclt_not_le.
    + apply Qcnot_lt_le in H2. by rewrite (bool_decide_eq_true_2 _ H2).
Qed.

Lemma mask_gmap (g : grid) :
  mask_above (mask_below g) = gmap (fun a => if in_range a then a else NaN) g.
Proof.
  unfold mask_above, mask_below. rewrite gmap_compose.
  apply gmap_ext. intros a. apply mask_px.
Qed.

Lemma in_range_bounds (a : npfloat) :
  in_range a = true -> exists q, a = Fin q /\ db_min <= q /\ q <= db_max.
Proof.
  destruct a as [| |q]; simpl; try done.
  intros [H1 H2]%andb_prop. exists q.
  apply bool_decide_eq_true_1 in H1, H2. done.
Qed.

(** C3: whatever the raw window (and whatever [log10] returns on it),
    every element of the masked decibel array is not-a-number or a finite
    value between -40 and 5. *)
Theorem sigma0_db_window_in_range (log10 : npfloat -> npfloat) (vh_window : grid) :
  Forall (Forall (fun v => v = NaN \/
                           exists q, v = Fin q /\ of_Z (-40) <= q /\ q <= of_Z 5))
         (sigma0_db_window log10 vh_window).
Proof.
  unfold sigma0_db_window. rewrite mask_gmap. apply Forall_gmap.
  intros a. destruct (in_range a) eqn:Hr; [|by left].
  right. by apply in_range_bounds.
Qed.

(** *** The Lee filter on a uniform window *)

Lemma reflect_index_lt (n : nat) (i : Z) : (0 < n)%nat -> (reflect_index n i < n)%nat.
Proof.
  intros Hn. unfold reflect_index.
  pose proof (Z.mod_pos_bound i (2 * Z.of_nat n)) as Hm.
  destruct (Z.ltb_spec (i mod (2 * Z.of_nat n)) (Z.of_nat n)); lia.
Qed.

Lemma fmap_seq_const {A} (f : nat -> A) (a : A) (n : nat) :
  (forall i, (i < n)%nat -> f i = a) -> f <$> seq 0 n = replicate n a.
Proof.
  intros H. apply list_eq. intros i. rewrite list_lookup_fmap.
  destruct (decide (i < n)%nat) as [Hi|Hi].
  - rewrite lookup_seq_lt, lookup_replicate_2 by done. simpl. by rewrite H.
  - rewrite lookup_seq_ge by lia. simpl. symmetry.
    apply lookup_replicate_None. lia.
Qed.

Lemma mean_of_five (t : Qc) : (0 + t + t + t + t + t) / of_Z 5 = t.
Proof. qc2q. change (inject_Z 5) with (5 # 1)%Q. field. Qed.

Lemma uniform_filter_row_replicate (n : nat) (t : Qc) :
  uniform_filter_row (replicate n (Fin t)) = replicate n (Fin t).
Proof.
  unfold uniform_filter_row. rewrite length_replicate.
  apply fmap_seq_const. intros i Hi. unfold window5. simpl.
  rewrite !lookup_replicate_2 by (apply reflect_index_lt; lia). simpl.
  by rewrite mean_of_five.
Qed.

Lemma mean_of_five' (t : Qc) : (t + t + t + t + t) / of_Z 5 = t.
Proof. qc2q. change (inject_Z 5) with (5 # 1)%Q. field. Qed.

Lemma uniform_filter_axis0_full (rows cols : nat) (t : Qc) :
  uniform_filter_axis0 (full rows cols (Fin t)) = full rows cols (Fin t).
Proof.
  unfold uniform_filter_axis0, full. rewrite length_replicate.
  apply fmap_seq_const. intros i Hi. unfold window5. simpl.
  rewrite !lookup_replicate_2 by (apply reflect_index_lt; lia). simpl.
  unfold row_add. rewrite !zip_with_replicate, fmap_replicate. simpl.
  by rewrite mean_of_five'.
Qed.

Lemma uniform_filter_full (rows cols : nat) (t : Qc) :
  uniform_filter (full rows cols (Fin t)) = full rows cols (Fin t).
Proof.
  unfold uniform_filter. rewrite uniform_filter_axis0_full.
  unfold full. rewrite fmap_replicate. by rewrite uniform_filter_row_replicate.
Qed.

Lemma ravel_full (rows cols : nat) (a : npfloat) :
  ravel (full rows cols a) = replicate (rows * cols) a.
Proof.
  unfold ravel, full. induction rows as [|rows IH]; simpl; [done|].
  by rewrite IH, replicate_add.
Qed.

Lemma full_no_element (rows cols : nat) (a b : npfloat) :
  (rows * cols = 0)%nat -> full rows cols a = full rows cols b.
Proof.
  intros H. unfold full.
  destruct rows as [|rows]; [done|]. by destruct cols as [|cols]; [|lia].
Qed.

Lemma foldl_fadd_replicate (n : nat) (acc t : Qc) :
  foldl fadd (Fin acc) (replicate n (Fin t)) = Fin (acc + of_Z (Z.of_nat n) * t).
Proof.
  revert acc. induction n as [|n IH]; intros acc.
  - simpl. f_equal. qc2q. change (inject_Z (Z.of_nat 0)) with 0%Q. ring.
  - cbn [replicate foldl fadd]. rewrite IH. f_equal. qc2q.
    rewrite Nat2Z.inj_succ, <- Z.add_1_r, inject_Z_plus.
    change (inject_Z 1) with 1%Q. ring.
Qed.

Lemma of_Z_nat_ne_0 (n : nat) : (0 < n)%nat -> of_Z (Z.of_nat n) <> 0.
Proof.
  intros Hn. qc2q. change 0%Q with (inject_Z 0). rewrite inject_Z_injective. lia.
Qed.

Lemma mean_all_full (rows cols : nat) (t : Qc) :
  (0 < rows * cols)%nat -> mean_all (full rows cols (Fin t)) = Fin t.
Proof.
  intros Hn. unfold mean_all, fsum, of_nat.
  rewrite ravel_full, length_replicate, foldl_fadd_replicate. simpl.
  pose proof (of_Z_nat_ne_0 _ Hn) as Hne.
  rewrite bool_decide_eq_false_2 by done. f_equal.
  revert Hne. generalize (of_Z (Z.of_nat (rows * cols))). intros d Hd.
  qc2q. field. done.
Qed.

Lemma var_all_full (rows cols : nat) (t : Qc) :
  (0 < rows * cols)%nat -> var_all (full rows cols (Fin t)) = Fin 0.
Proof.
  intros Hn. unfold var_all. rewrite mean_all_full by done.
  unfold fsum, of_nat. rewrite ravel_full, length_replicate, fmap_replicate.
  assert (Hdev : fsquare (fsub (Fin t) (Fin t)) = Fin 0).
  { simpl. f_equal. qc2q. ring. }
  rewrite Hdev, foldl_fadd_replicate. simpl.
  pose proof (of_Z_nat_ne_0 _ Hn) as Hne.
  rewrite bool_decide_eq_false_2 by done. f_equal.
  revert Hne. generalize (of_Z (Z.of_nat (rows * cols))). intros d Hd.
  qc2q. field. done.
Qed.

Lemma lee_unmasked_full (rows cols : nat) (t : Qc) :
  lee_unmasked (full rows cols (Fin t)) = full rows cols NaN.
Proof.
  unfold lee_unmasked.
  rewrite uniform_filter_full, (gmap_full fsquare).
  change (fsquare (Fin t)) with (Fin (t * t)).
  rewrite uniform_filter_full, !gmap2_full, gmap_full, !gmap2_full.
  destruct (decide (rows * cols = 0)%nat) as [Hz|Hz].
  { by apply full_no_element. }
  rewrite var_all_full by lia.
  assert (Hvar : fsub (Fin (t * t)) (Fin (t * t)) = Fin 0).
  { simpl. f_equal. qc2q. ring. }
  rewrite Hvar.
  assert (Hw : fdiv (Fin 0) (fadd (Fin 0) (Fin 0)) = NaN) by (by vm_compute).
  by rewrite Hw.
Qed.

(** On a window whose elements are all the same, the ratio is 0/0
    everywhere and the whole output is not-a-number. *)
Lemma lee_filtered_full (rows cols : nat) (a : npfloat) :
  lee_filtered (full rows cols a) = full rows cols NaN.
Proof.
  unfold lee_filtered, temp_of, put_nan. rewrite gmap_full.
  assert (exists t, nan_to_num db_min a = Fin t) as [t ->].
  { destruct a as [|[]|q]; simpl; eauto. }
  rewrite lee_unmasked_full, gmap2_full. by destruct (isnan a).
Qed.

Lemma gget_full (rows cols : nat) (a : npfloat) (i j : nat) :
  (i < rows)%nat -> (j < cols)%nat -> gget (full rows cols a) i j = Some a.
Proof.
  intros Hi Hj. unfold gget, full. rewrite lookup_replicate_2 by done.
  simpl. by rewrite lookup_replicate_2.
Qed.

(** *** Shapes, and no-data put back after the filter *)

Lemma shape_of_length {A} (g : list (list A)) (r c : nat) :
  shape_of g = replicate r c -> length g = r.
Proof.
  intros H. apply (f_equal length) in H. unfold shape_of in H.
  by rewrite length_fmap, length_replicate in H.
Qed.

Lemma shape_of_lookup {A} (g : list (list A)) (r c k : nat) (row : list A) :
  shape_of g = replicate r c -> g !! k = Some row -> length row = c.
Proof.
  intros Hs Hk.
  assert (H : shape_of g !! k = Some (length row)).
  { unfold shape_of. by rewrite list_lookup_fmap, Hk. }
  rewrite Hs in H. by apply lookup_replicate in H as [? _].
Qed.

Lemma length_uniform_filter_row (row : list npfloat) :
  length (uniform_filter_row row) = length row.
Proof. unfold uniform_filter_row. by rewrite length_fmap, length_seq. Qed.

Lemma shape_of_uniform_filter (g : grid) (r c : nat) :
  shape_of g = replicate r c -> shape_of (uniform_filter g) = replicate r c.
Proof.
  intros Hs. pose proof (shape_of_length _ _ _ Hs) as Hlen.
  unfold uniform_filter, uniform_filter_axis0, shape_of.
  rewrite <- !list_fmap_compose, Hlen.
  apply fmap_seq_const. intros i Hi. simpl.
  rewrite length_uniform_filter_row, length_fmap.
  assert (Hrow : forall k, exists row,
             g !! reflect_index r k = Some row /\ length row = c).
  { intros k. destruct (lookup_lt_is_Some_2 g (reflect_index r k)) as [row Hrow].
    { rewrite Hlen. apply reflect_index_lt. lia. }
    exists row. split; [done|]. by eapply shape_of_lookup. }
  unfold window5. cbn [fmap list_fmap].
  destruct (Hrow (Z.of_nat i + -2)%Z) as (r1 & -> & H1).
  destruct (Hrow (Z.of_nat i + -1)%Z) as (r2 & -> & H2).
  destruct (Hrow (Z.of_nat i + 0)%Z) as (r3 & -> & H3).
  destruct (Hrow (Z.of_nat i + 1)%Z) as (r4 & -> & H4).
  destruct (Hrow (Z.of_nat i + 2)%Z) as (r5 & -> & H5).
  simpl. unfold row_add. rewrite !length_zip_with. lia.
Qed.

Lemma shape_of_lee_unmasked (temp : grid) (r c : nat) :
  shape_of temp = replicate r c -> shape_of (lee_unmasked temp) = replicate r c.
Proof.
  intros Hs. unfold lee_unmasked, gmap2.
  pose proof (shape_of_uniform_filter _ _ _ Hs) as Hm.
  assert (Hsq : shape_of (uniform_filter (gmap fsquare temp)) = replicate r c).
  { apply shape_of_uniform_filter. by rewrite shape_of_gmap. }
  set (mean := uniform_filter temp) in *.
  set (mean_sq := uniform_filter (gmap fsquare temp)) in *.
  assert (Hdiff : shape_of (zip_with (zip_with fsub) temp mean) = replicate r c).
  { rewrite shape_of_zip_with; congruence. }
  assert (Hvar : shape_of (zip_with (zip_with fsub) mean_sq (gmap fsquare mean))
                 = replicate r c).
  { rewrite shape_of_zip_with; rewrite shape_of_gmap; congruence. }
  rewrite !shape_of_zip_with; rewrite ?shape_of_gmap; try congruence.
  rewrite shape_of_zip_with; rewrite ?shape_of_gmap; congruence.
Qed.

(** Element by element: no-data where the input is no-data, the filtered
    value elsewhere. *)
Lemma gget_lee_filtered (db : grid) (r c i j : nat) (x : npfloat) :
  shape_of db = replicate r c -> gget db i j = Some x ->
  exists y, gget (lee_unmasked (temp_of db)) i j = Some y /\
            gget (lee_filtered db) i j = Some (if isnan x then NaN else y).
Proof.
  intros Hs Hx.
  assert (Hl : shape_of db = shape_of (lee_unmasked (temp_of db))).
  { rewrite (shape_of_lee_unmasked _ r c); [done|].
    unfold temp_of. by rewrite shape_of_gmap. }
  destruct (shape_of_gget _ _ i j Hl) as [y Hy]; [by exists x|].
  exists y. split; [exact Hy|].
  unfold lee_filtered, put_nan, gmap2. rewrite gget_zip_with.
  unfold gget in Hx, Hy.
  destruct (db !! i) as [ra|]; simpl in *; [|done].
  destruct (lee_unmasked (temp_of db) !! i) as [rb|]; simpl in *; [|done].
  by rewrite Hx, Hy.
Qed.

(** What line 131 does implement: the output is no-data
    wherever the masked input is, so the substituted floor never shows
    there. *)
Lemma lee_filtered_keeps_nodata (db : grid) (r c i j : nat) :
  shape_of db = replicate r c -> gget db i j = Some NaN ->
  gget (lee_filtered db) i j = Some NaN.
Proof.
  intros Hs Hx. by destruct (gget_lee_filtered db r c i j NaN Hs Hx) as (y & _ & ->).
Qed.

(** *** The local variance is not negative *)

Lemma Q_square_nonneg (x : Q) : (0 <= x * x)%Q.
Proof. nra. Qed.

(** Square of a mean of five against the mean of five bounds of squares. *)
Lemma mean5_square (a1 a2 a3 a4 a5 b1 b2 b3 b4 b5 : Qc) :
  a1 * a1 <= b1 -> a2 * a2 <= b2 -> a3 * a3 <= b3 -> a4 * a4 <= b4 ->
  a5 * a5 <= b5 ->
  (a1 + a2 + a3 + a4 + a5) / of_Z 5 * ((a1 + a2 + a3 + a4 + a5) / of_Z 5)
  <= (b1 + b2 + b3 + b4 + b5) / of_Z 5.
Proof.
  intros H1 H2 H3 H4 H5. qc2q.
  change (inject_Z 5) with (5 # 1)%Q. unfold Qdiv. change (/ (5 # 1))%Q with (1 # 5)%Q.
  pose proof (Q_square_nonneg (this a1 - this a2)).
  pose proof (Q_square_nonneg (this a1 - this a3)).
  pose proof (Q_square_nonneg (this a1 - this a4)).
  pose proof (Q_square_nonneg (this a1 - this a5)).
  pose proof (Q_square_nonneg (this a2 - this a3)).
  pose proof (Q_square_nonneg (this a2 - this a4)).
  pose proof (Q_square_nonneg (this a2 - this a5)).
  pose proof (Q_square_nonneg (this a3 - this a4)).
  pose proof (Q_square_nonneg (this a3 - this a5)).
  pose proof (Q_square_nonneg (this a4 - this a5)).
  lra.
Qed.

Lemma mean5_square_below (x1 x2 x3 x4 x5 y1 y2 y3 y4 y5 : npfloat) :
  square_below x1 y1 -> square_below x2 y2 -> square_below x3 y3 ->
  square_below x4 y4 -> square_below x5 y5 ->
  square_below
    (fdiv (fadd (fadd (fadd (fadd x1 x2) x3) x4) x5) (Fin (of_Z 5)))
    (fdiv (fadd (fadd (fadd (fadd y1 y2) y3) y4) y5) (Fin (of_Z 5))).
Proof.
  intros (a1 & b1 & -> & -> & H1) (a2 & b2 & -> & -> & H2)
         (a3 & b3 & -> & -> & H3) (a4 & b4 & -> & -> & H4)
         (a5 & b5 & -> & -> & H5).
  simpl. eexists _, _. split_and!; [done..|]. by apply mean5_square.
Qed.

Lemma fadd_0_l (x : npfloat) : finite x -> fadd (Fin 0) x = x.
Proof. intros [q ->]. simpl. by rewrite Qcplus_0_l. Qed.

Lemma square_below_finite_l (x y : npfloat) : square_below x y -> finite x.
Proof. intros (a & b & -> & _). by exists a. Qed.

Lemma square_below_finite_r (x y : npfloat) : square_below x y -> finite y.
Proof. intros (a & b & _ & -> & _). by exists b. Qed.

Lemma Forall2_lookup_pair {A B} (P : A -> B -> Prop)
    (l : list A) (k : list B) (i : nat) :
  Forall2 P l k -> (i < length l)%nat ->
  exists x y, l !! i = Some x /\ k !! i = Some y /\ P x y.
Proof.
  intros H Hi. destruct (lookup_lt_is_Some_2 l i Hi) as [x Hx].
  destruct (Forall2_lookup_l _ _ _ _ _ H Hx) as (y & Hy & Hxy). eauto.
Qed.

Lemma uniform_filter_row_square_below (ra rb : list npfloat) :
  Forall2 square_below ra rb ->
  Forall2 square_below (uniform_filter_row ra) (uniform_filter_row rb).
Proof.
  intros H. pose proof (list.Forall2_length _ _ _ H) as Hlen.
  unfold uniform_filter_row. rewrite <- Hlen.
  apply Forall2_fmap, Forall_Forall2_diag, list.Forall_forall.
  intros i [_ Hi]%elem_of_seq. simpl in Hi.
  assert (Hk : forall k, exists x y,
             ra !! reflect_index (length ra) k = Some x /\
             rb !! reflect_index (length ra) k = Some y /\ square_below x y).
  { intros k. apply Forall2_lookup_pair; [done|]. apply reflect_index_lt. lia. }
  unfold window5, fsum. cbn [fmap list_fmap foldl].
  destruct (Hk (Z.of_nat i + -2)%Z) as (x1 & y1 & -> & -> & H1).
  destruct (Hk (Z.of_nat i + -1)%Z) as (x2 & y2 & -> & -> & H2).
  destruct (Hk (Z.of_nat i + 0)%Z) as (x3 & y3 & -> & -> & H3).
  destruct (Hk (Z.of_nat i + 1)%Z) as (x4 & y4 & -> & -> & H4).
  destruct (Hk (Z.of_nat i + 2)%Z) as (x5 & y5 & -> & -> & H5).
  cbn [default from_option].
  rewrite !fadd_0_l by eauto using square_below_finite_l, square_below_finite_r.
  by apply mean5_square_below.
Qed.

Lemma row_mean5_square_below (ra1 ra2 ra3 ra4 ra5 rb1 rb2 rb3 rb4 rb5 : list npfloat) :
  Forall2 square_below ra1 rb1 -> Forall2 square_below ra2 rb2 ->
  Forall2 square_below ra3 rb3 -> Forall2 square_below ra4 rb4 ->
  Forall2 square_below ra5 rb5 ->
  Forall2 square_below
    ((fun x => fdiv x (Fin (of_Z 5))) <$> row_sum [ra1; ra2; ra3; ra4; ra5])
    ((fun x => fdiv x (Fin (of_Z 5))) <$> row_sum [rb1; rb2; rb3; rb4; rb5]).
Proof.
  intros H1 H2 H3 H4 H5. apply Forall2_same_length_lookup_2.
  - rewrite !length_fmap. simpl. unfold row_add. rewrite !length_zip_with.
    apply list.Forall2_length in H1, H2, H3, H4, H5. lia.
  - intros j x y Hx Hy. rewrite list_lookup_fmap in Hx, Hy.
    simpl in Hx, Hy. unfold row_add in Hx, Hy. rewrite !lookup_zip_with in Hx, Hy.
    destruct (ra1 !! j) as [x1|] eqn:E1; [|done].
    destruct (ra2 !! j) as [x2|] eqn:E2; [|done].
    destruct (ra3 !! j) as [x3|] eqn:E3; [|done].
    destruct (ra4 !! j) as [x4|] eqn:E4; [|done].
    destruct (ra5 !! j) as [x5|] eqn:E5; [|done].
    destruct (Forall2_lookup_l _ _ _ _ _ H1 E1) as (y1 & F1 & G1).
    destruct (Forall2_lookup_l _ _ _ _ _ H2 E2) as (y2 & F2 & G2).
    destruct (Forall2_lookup_l _ _ _ _ _ H3 E3) as (y3 & F3 & G3).
    destruct (Forall2_lookup_l _ _ _ _ _ H4 E4) as (y4 & F4 & G4).
    destruct (Forall2_lookup_l _ _ _ _ _ H5 E5) as (y5 & F5 & G5).
    rewrite F1, F2, F3, F4, F5 in Hy. simpl in Hx, Hy.
    injection Hx as <-. injection Hy as <-. by apply mean5_square_below.
Qed.

Lemma uniform_filter_axis0_square_below (a b : grid) :
  Forall2 (Forall2 square_below) a b ->
  Forall2 (Forall2 square_below) (uniform_filter_axis0 a) (uniform_filter_axis0 b).
Proof.
  intros H. pose proof (list.Forall2_length _ _ _ H) as Hlen.
  unfold uniform_filter_axis0. rewrite <- Hlen.
  apply Forall2_fmap, Forall_Forall2_diag, list.Forall_forall.
  intros i [_ Hi]%elem_of_seq. simpl in Hi.
  assert (Hk : forall k, exists ra rb,
             a !! reflect_index (length a) k = Some ra /\
             b !! reflect_index (length a) k = Some rb /\
             Forall2 square_below ra rb).
  { intros k. apply Forall2_lookup_pair; [done|]. apply reflect_index_lt. lia. }
  unfold window5. cbn [fmap list_fmap].
  destruct (Hk (Z.of_nat i + -2)%Z) as (ra1 & rb1 & -> & -> & H1).
  destruct (Hk (Z.of_nat i + -1)%Z) as (ra2 & rb2 & -> & -> & H2).
  destruct (Hk (Z.of_nat i + 0)%Z) as (ra3 & rb3 & -> & -> & H3).
  destruct (Hk (Z.of_nat i + 1)%Z) as (ra4 & rb4 & -> & -> & H4).
  destruct (Hk (Z.of_nat i + 2)%Z) as (ra5 & rb5 & -> & -> & H5).
  cbn [default from_option]. by apply row_mean5_square_below.
Qed.

(** The local mean and the local mean of squares of a finite raster. *)
Lemma uniform_filter_square_below (temp : grid) :
  Forall (Forall finite) temp ->
  Forall2 (Forall2 square_below)
          (uniform_filter temp) (uniform_filter (gmap fsquare temp)).
Proof.
  intros Hfin. unfold uniform_filter.
  assert (H0 : Forall2 (Forall2 square_below) temp (gmap fsquare temp)).
  { unfold gmap. apply Forall2_fmap_r, Forall_Forall2_diag.
    eapply list.Forall_impl; [exact Hfin|]. intros row Hrow. simpl.
    apply Forall2_fmap_r, Forall_Forall2_diag.
    eapply list.Forall_impl; [exact Hrow|]. intros x [q ->].
    exists q, (q * q). split_and!; [done..|]. apply Qcle_refl. }
  apply uniform_filter_axis0_square_below in H0.
  apply Forall2_fmap.
  induction H0; constructor; auto using uniform_filter_row_square_below.
Qed.

(** *** The overall variance of a raster that is not constant *)

Lemma finite_list (l : list npfloat) :
  Forall finite l -> exists qs, l = Fin <$> qs.
Proof.
  induction 1 as [|x l [q ->] _ [qs ->]]; [by exists []|]. by exists (q :: qs).
Qed.

Lemma foldl_fadd_Fin (acc : Qc) (qs : list Qc) :
  foldl fadd (Fin acc) (Fin <$> qs) = Fin (foldl Qcplus acc qs).
Proof. revert acc. induction qs as [|q qs IH]; intros acc; [done|]. apply IH. Qed.

Lemma foldl_Qcplus_ge (acc : Qc) (qs : list Qc) :
  Forall (Qcle 0) qs -> acc <= foldl Qcplus acc qs.
Proof.
  intros H. revert acc. induction H as [|q qs Hq _ IH]; intros acc; simpl.
  - apply Qcle_refl.
  - eapply Qcle_trans; [|apply IH]. qc2q. lra.
Qed.

Lemma foldl_Qcplus_gt (acc : Qc) (qs : list Qc) :
  Forall (Qcle 0) qs -> (exists q, q ∈ qs /\ 0 < q) -> acc < foldl Qcplus acc qs.
Proof.
  intros H. revert acc. induction H as [|q qs Hq Hqs IH]; intros acc (p & Hp & Hpos).
  - by apply elem_of_nil in Hp.
  - simpl. apply elem_of_cons in Hp as [-> | Hp].
    + eapply Qclt_le_trans; [|by apply foldl_Qcplus_ge]. qc2q. lra.
    + eapply Qcle_lt_trans; [|apply IH; eauto]. qc2q. lra.
Qed.

Lemma Qc_square_pos (a b : Qc) : a <> b -> 0 < (a + - b) * (a + - b).
Proof.
  intros Hne. qc2q.
  destruct (Q_dec (this a) (this b)) as [[Hlt | Hgt] | Heq]; [nra | nra | done].
Qed.

Lemma Qc_square_nonneg (a : Qc) : 0 <= a * a.
Proof. qc2q. apply Q_square_nonneg. Qed.

Lemma var_all_pos (temp : grid) :
  Forall (Forall finite) temp -> not_constant temp ->
  exists ov, var_all temp = Fin ov /\ 0 < ov.
Proof.
  intros Hfin (x & y & Hx & Hy & Hxy).
  assert (Hr : Forall finite (ravel temp)).
  { apply list.Forall_forall. intros z (row & Hrow & Hz)%elem_of_ravel.
    rewrite list.Forall_forall in Hfin. specialize (Hfin row Hrow).
    rewrite list.Forall_forall in Hfin. auto. }
  destruct (finite_list _ Hr) as [qs Hqs].
  unfold var_all, mean_all, fsum, of_nat. rewrite Hqs in *. clear Hr Hqs Hfin.
  rewrite length_fmap, foldl_fadd_Fin.
  assert (Hn : (0 < length qs)%nat).
  { destruct qs; [by apply elem_of_nil in Hx | simpl; lia]. }
  pose proof (of_Z_nat_ne_0 _ Hn) as Hne.
  assert (Hnpos : 0 < of_Z (Z.of_nat (length qs))).
  { qc2q. change 0%Q with (inject_Z 0). rewrite <- Zlt_Qlt. lia. }
  set (N := of_Z (Z.of_nat (length qs))) in *.
  cbn [fdiv]. rewrite (bool_decide_eq_false_2 _ Hne).
  set (mu := foldl Qcplus 0 qs / N).
  rewrite <- list_fmap_compose.
  rewrite (list_fmap_ext _ (Fin ∘ (fun q => (q + - mu) * (q + - mu))) qs)
    by (by intros).
  rewrite list_fmap_compose, foldl_fadd_Fin.
  cbn [fdiv]. rewrite (bool_decide_eq_false_2 _ Hne).
  eexists. split; [done|].
  assert (HD : 0 < foldl Qcplus 0 ((fun q => (q + - mu) * (q + - mu)) <$> qs)).
  { apply foldl_Qcplus_gt.
    - apply Forall_fmap, Forall_true. intros q. simpl. apply Qc_square_nonneg.
    - apply list_elem_of_fmap in Hx as (qx & -> & Hqx).
      apply list_elem_of_fmap in Hy as (qy & -> & Hqy).
      destruct (decide (qx = mu)) as [Hmu|Hmu].
      + exists ((qy + - mu) * (qy + - mu)). split.
        * apply list_elem_of_fmap. eauto.
        * apply Qc_square_pos. congruence.
      + exists ((qx + - mu) * (qx + - mu)). split.
        * apply list_elem_of_fmap. eauto.
        * by apply Qc_square_pos. }
  revert HD Hnpos.
  generalize (foldl Qcplus 0 ((fun q => (q + - mu) * (q + - mu)) <$> qs)).
  generalize N. intros n d HD Hn'. qc2q.
  apply Qlt_shift_div_l; lra.
Qed.

(** *** The filter away from the degenerate case *)

Lemma Forall_gmap2 (PA PB PC : npfloat -> Prop)
    (f : npfloat -> npfloat -> npfloat) (a b : grid) :
  (forall x y, PA x -> PB y -> PC (f x y)) ->
  Forall (Forall PA) a -> Forall (Forall PB) b -> Forall (Forall PC) (gmap2 f a b).
Proof.
  intros Hf. unfold gmap2. apply Forall_zip_with.
  intros ra rb. by apply Forall_zip_with.
Qed.

Lemma Forall_gmap_impl (P Q : npfloat -> Prop) (f : npfloat -> npfloat) (a : grid) :
  (forall x, P x -> Q (f x)) -> Forall (Forall P) a -> Forall (Forall Q) (gmap f a).
Proof.
  intros Hf Ha. unfold gmap. apply Forall_fmap.
  eapply list.Forall_impl; [exact Ha|]. intros row Hrow. simpl.
  apply Forall_fmap. eapply list.Forall_impl; [exact Hrow|]. done.
Qed.

Lemma square_below_means_finite (mean mean_sq : grid) :
  Forall2 (Forall2 square_below) mean mean_sq -> Forall (Forall finite) mean.
Proof.
  induction 1 as [|ra rb a b Hr _ IH]; constructor; [|done].
  induction Hr as [|x y ra rb Hxy _ IHr]; constructor; [|done].
  by eapply square_below_finite_l.
Qed.

Lemma variance_nonneg (mean mean_sq : grid) :
  Forall2 (Forall2 square_below) mean mean_sq ->
  Forall (Forall nonneg) (gmap2 fsub mean_sq (gmap fsquare mean)).
Proof.
  unfold gmap2, gmap.
  induction 1 as [|ra rb a b Hr _ IH]; [done|]. rewrite fmap_cons. simpl.
  constructor; [|done]. clear IH.
  induction Hr as [|x y ra rb (p & q & -> & -> & Hpq) _ IHr]; [done|].
  rewrite fmap_cons. simpl. constructor; [|done].
  eexists. split; [done|]. qc2q. lra.
Qed.

Lemma finite_fadd (x y : npfloat) : finite x -> finite y -> finite (fadd x y).
Proof. intros [a ->] [b ->]. by eexists. Qed.

Lemma finite_fsub (x y : npfloat) : finite x -> finite y -> finite (fsub x y).
Proof. intros [a ->] [b ->]. by eexists. Qed.

Lemma finite_fmul (x y : npfloat) : finite x -> finite y -> finite (fmul x y).
Proof. intros [a ->] [b ->]. by eexists. Qed.

Lemma weight_finite (ov : Qc) (v : npfloat) :
  0 < ov -> nonneg v -> finite (fdiv v (fadd v (Fin ov))).
Proof.
  intros Hov (q & -> & Hq). simpl.
  rewrite bool_decide_eq_false_2; [by eexists|].
  intros H0. qc2q. lra.
Qed.

(** When the substituted raster is not constant every filtered value is
    finite. *)
Lemma lee_unmasked_finite (temp : grid) :
  Forall (Forall finite) temp -> not_constant temp ->
  Forall (Forall finite) (lee_unmasked temp).
Proof.
  intros Hfin Hnc. unfold lee_unmasked.
  pose proof (uniform_filter_square_below temp Hfin) as Hsb.
  destruct (var_all_pos temp Hfin Hnc) as (ov & -> & Hov).
  pose proof (square_below_means_finite _ _ Hsb) as Hmean.
  apply (Forall_gmap2 finite finite); [apply finite_fadd|done|].
  apply (Forall_gmap2 finite finite); [apply finite_fmul| |].
  - eapply Forall_gmap_impl; [|by apply variance_nonneg].
    intros v Hv. by apply weight_finite.
  - by apply (Forall_gmap2 finite finite); [apply finite_fsub|..].
Qed.

Lemma temp_of_finite (db : grid) : Forall (Forall finite) (temp_of db).
Proof.
  unfold temp_of. apply Forall_gmap. intros [|[]|q]; by eexists.
Qed.

(** Away from the degenerate case: on a window whose substituted
    raster is not constant, the output is no-data at exactly the no-data
    positions of the masked input. *)
Lemma lee_filtered_nodata_exact (db : grid) (r c i j : nat) (x : npfloat) :
  shape_of db = replicate r c -> not_constant (temp_of db) ->
  gget db i j = Some x ->
  (gget (lee_filtered db) i j = Some NaN <-> x = NaN).
Proof.
  intros Hs Hnc Hx.
  destruct (gget_lee_filtered db r c i j x Hs Hx) as (y & Hy & ->).
  pose proof (lee_unmasked_finite _ (temp_of_finite db) Hnc) as Hfin.
  destruct (Forall_gget _ _ _ _ _ Hfin Hy) as [q ->].
  destruct x as [|s|p]; simpl; split; done.
Qed.

(** C4 (evaluation of the code): on a uniform window without no-data the
    Lee filter does not return the window; the ratio is 0/0, which the
    array division makes not-a-number, and every output element is
    not-a-number. *)
Theorem lee_filtered_uniform (rows cols : nat) (c : Qc) :
  lee_filtered (full rows cols (Fin c)) = full rows cols NaN.
Proof. apply lee_filtered_full. Qed.

(** C5 (evaluation of the code): on the 5 x 5 window of 0 dB the centre
    is not no-data in the input and is not-a-number in the output. *)
Theorem lee_filtered_nan_outside_nodata :
  gget (full 5 5 (Fin 0)) 2 2 = Some (Fin 0) /\
  gget (lee_filtered (full 5 5 (Fin 0))) 2 2 = Some NaN.
Proof.
  rewrite lee_filtered_full. split; apply gget_full; lia.
Qed.

(** *** Out-of-range magnitudes do not reach the filter *)

Lemma fmap_Forall2_eq {A B} (R : A -> A -> Prop) (f : A -> B) (l k : list A) :
  (forall x y, R x y -> f x = f y) -> Forall2 R l k -> f <$> l = f <$> k.
Proof.
  intros Hf H. induction H as [|x y l k Hxy _ IH]; [done|].
  cbn [fmap list_fmap]. f_equal; [by apply Hf | exact IH].
Qed.

Lemma same_after_mask_eq (a b : npfloat) :
  same_after_mask a b ->
  (if in_range a then a else NaN) = (if in_range b then b else NaN).
Proof.
  intros [Hr Heq]. rewrite <- Hr. destruct (in_range a); [by apply Heq | done].
Qed.

(** C10: two raw windows whose decibel values are plausible at the same
    positions and equal there give the same Lee-filtered raster, whatever
    the implausible values are. *)
Theorem lee_filtered_ignores_masked_values
    (log10 : npfloat -> npfloat) (vh1 vh2 : grid) :
  Forall2 (Forall2 same_after_mask)
          (to_db log10 (sigma0_linear vh1)) (to_db log10 (sigma0_linear vh2)) ->
  lee_filtered (sigma0_db_window log10 vh1)
  = lee_filtered (sigma0_db_window log10 vh2).
Proof.
  intros H. f_equal. unfold sigma0_db_window. rewrite !mask_gmap. unfold gmap.
  eapply fmap_Forall2_eq; [|exact H].
  intros r1 r2 Hr. simpl. eapply fmap_Forall2_eq; [|exact Hr].
  apply same_after_mask_eq.
Qed.

Lemma lee_filtered_ignores_masked_values_witness :
  lee_filtered (sigma0_db_window log10_floor
                  [[Fin (of_Z 10000); Fin 0]; [Fin (of_Z 20000); Fin (of_Z 5000)]])
  = lee_filtered (sigma0_db_window log10_floor
                  [[Fin (of_Z 10000); Fin (of_Z 500000000)]; [Fin (of_Z 20000); Fin (of_Z 5000)]]).
Proof.
  apply lee_filtered_ignores_masked_values.
  unfold to_db, sigma0_linear, gmap. cbn [fmap list_fmap].
  repeat first [apply Forall2_nil | apply Forall2_cons].
  all: split; by vm_compute.
Defined.

(** *** Minimum and maximum that skip not-a-number *)

Lemma flt_irrefl (a : npfloat) : flt a a = false.
Proof.
  destruct a as [|[]|q]; simpl; try done.
  apply bool_decide_eq_false_2. intros H. by apply Qclt_not_eq in H.
Qed.

Lemma flt_asym (a b : npfloat) : flt a b = true -> flt b a = false.
Proof.
  destruct a as [|[]|x], b as [|[]|y]; simpl; try done.
  intros H%bool_decide_eq_true_1. apply bool_decide_eq_false_2.
  by apply Qcle_not_lt, Qclt_le_weak.
Qed.

(** On values that are not not-a-number, [<] is a total strict order. *)
Lemma flt_cotrans (a b c : npfloat) :
  isnan b = false -> flt a c = true -> flt a b = true \/ flt b c = true.
Proof.
  destruct a as [|[]|x], b as [|[]|y], c as [|[]|z]; simpl; try done; auto.
  intros _ H%bool_decide_eq_true_1.
  destruct (Qclt_le_dec x y) as [Hxy|Hyx].
  - left. by apply bool_decide_eq_true_2.
  - right. apply bool_decide_eq_true_2. by eapply Qcle_lt_trans.
Qed.

Lemma flt_total (a b : npfloat) :
  isnan a = false -> isnan b = false ->
  flt a b = false -> flt b a = false -> a = b.
Proof.
  destruct a as [|[]|x], b as [|[]|y]; simpl; try done.
  intros _ _ H1%bool_decide_eq_false_1 H2%bool_decide_eq_false_1.
  f_equal. apply Qcle_antisym; by apply Qcnot_lt_le.
Qed.

Section Reduce.
(** [lt] is [<] for the minimum and [>] for the maximum. *)
Variable lt : npfloat -> npfloat -> bool.
Hypothesis lt_irrefl : forall a, lt a a = false.
Hypothesis lt_asym : forall a b, lt a b = true -> lt b a = false.
Hypothesis lt_cotrans : forall a b c,
  isnan b = false -> lt a c = true -> lt a b = true \/ lt b c = true.

Abbreviation pick := (Radar.pick lt).

Lemma foldl_pick (rest : list npfloat) (x : npfloat) :
  Forall (fun y => isnan y = false) (x :: rest) ->
  foldl pick x rest ∈ x :: rest /\
  forall y, y ∈ x :: rest -> lt y (foldl pick x rest) = false.
Proof.
  revert x. induction rest as [|z rest IH]; intros x Hall; simpl.
  { split; [by left|]. intros y ->%list_elem_of_singleton. apply lt_irrefl. }
  apply Forall_cons_1 in Hall as [Hx Hall].
  pose proof Hall as [Hz Hrest]%Forall_cons_1.
  assert (Hp : pick x z = x \/ pick x z = z).
  { unfold pick. destruct (lt z x); auto. }
  assert (Hpn : isnan (pick x z) = false) by (by destruct Hp as [-> | ->]).
  destruct (IH (pick x z)) as [Hin Hle]; [by constructor|].
  assert (Hpx : lt x (pick x z) = false).
  { unfold pick. destruct (lt z x) eqn:E; [by apply lt_asym | apply lt_irrefl]. }
  assert (Hpz : lt z (pick x z) = false).
  { unfold pick. destruct (lt z x) eqn:E; [apply lt_irrefl | done]. }
  assert (Hlow : forall y, lt y (pick x z) = false ->
                           lt y (foldl pick (pick x z) rest) = false).
  { intros y Hy. destruct (lt y (foldl pick (pick x z) rest)) eqn:E; [|done].
    destruct (lt_cotrans _ (pick x z) _ Hpn E) as [H|H]; [congruence|].
    rewrite Hle in H; [done | by left]. }
  split.
  - apply elem_of_cons in Hin as [Hin|Hin].
    + rewrite Hin. destruct Hp as [-> | ->]; [by left | right; by left].
    + right. by right.
  - intros y [->|[->|Hy]%elem_of_cons]%elem_of_cons; auto.
    apply Hle. by right.
Qed.

Lemma nan_reduce_spec (g : grid) (m : npfloat) :
  nan_reduce pick g = Ok m ->
  (m = NaN /\ forall x, x ∈ ravel g -> x = NaN) \/
  (isnan m = false /\ m ∈ ravel g /\
   forall x, x ∈ ravel g -> isnan x = false -> lt x m = false).
Proof.
  unfold nan_reduce. destruct (ravel g) as [|x0 l0] eqn:Hr; [done|].
  unfold valid. destruct (filter _ (x0 :: l0)) as [|x rest] eqn:Hf.
  - intros [= <-]. left. split; [done|]. intros x Hx.
    destruct (isnan x) eqn:Hn; [by destruct x|].
    assert (x ∈ filter (fun x => isnan x = false) (x0 :: l0))
      by (by apply list_elem_of_filter).
    rewrite Hf in H. by apply elem_of_nil in H.
  - intros [= <-]. right.
    assert (Hall : Forall (fun y => isnan y = false) (x :: rest)).
    { rewrite <- Hf. apply list.Forall_forall.
      by intros y [Hy _]%list_elem_of_filter. }
    destruct (foldl_pick rest x Hall) as [Hin Hle].
    assert (Hsub : forall y, y ∈ x :: rest <-> (isnan y = false /\ y ∈ x0 :: l0)).
    { intros y. by rewrite <- Hf, list_elem_of_filter. }
    split_and!.
    + rewrite list.Forall_forall in Hall. by apply Hall.
    + by apply Hsub in Hin as [_ ?].
    + intros y Hy Hn. apply Hle, Hsub. done.
Qed.
End Reduce.

Lemma nanmin_spec (g : grid) (m : npfloat) :
  nanmin g = Ok m ->
  (m = NaN /\ forall x, x ∈ ravel g -> x = NaN) \/
  (isnan m = false /\ m ∈ ravel g /\
   forall x, x ∈ ravel g -> isnan x = false -> flt x m = false).
Proof.
  apply (nan_reduce_spec flt flt_irrefl flt_asym flt_cotrans).
Qed.

Lemma nanmax_spec (g : grid) (m : npfloat) :
  nanmax g = Ok m ->
  (m = NaN /\ forall x, x ∈ ravel g -> x = NaN) \/
  (isnan m = false /\ m ∈ ravel g /\
   forall x, x ∈ ravel g -> isnan x = false -> flt m x = false).
Proof.
  apply (nan_reduce_spec fgt).
  - intros a. apply flt_irrefl.
  - intros a b. apply flt_asym.
  - intros a b c Hb H. destruct (flt_cotrans c b a Hb H); auto.
Qed.

(** *** The texture patch *)

Lemma img_as_ubyte_gmap (f : npfloat -> npfloat) (h : npfloat -> Z) (g : grid) :
  (forall x, x ∈ ravel g -> ubyte_of (f x) = Ok (h x)) ->
  img_as_ubyte (gmap f g) = Ok (fmap (M:=list) (fmap (M:=list) h) g).
Proof.
  intros H. unfold img_as_ubyte, gmap. rewrite mapM_fmap.
  apply mapM_Ok. intros row Hrow. simpl. rewrite mapM_fmap.
  apply mapM_Ok. intros x Hx. simpl. apply H, elem_of_ravel. eauto.
Qed.

Lemma fsub_self_ratio (m : npfloat) : fdiv (fsub m m) (fsub m m) = NaN.
Proof.
  destruct m as [|[]|q]; try done. simpl.
  assert (Hz : q + - q = 0) by (qc2q; ring).
  by rewrite !bool_decide_eq_true_2.
Qed.

(** With equal minimum and maximum every element is normalized to 0/0. *)
Lemma degenerate_norm (patch : grid) (m x : npfloat) :
  nanmin patch = Ok m -> nanmax patch = Ok m -> x ∈ ravel patch ->
  fdiv (fsub x m) (fsub m m) = NaN.
Proof.
  intros Hmin Hmax Hx.
  destruct (nanmin_spec _ _ Hmin) as [[-> _] | (Hm & _ & Hlo)].
  { by destruct x as [|[]|]. }
  destruct (nanmax_spec _ _ Hmax) as [[-> _] | (_ & _ & Hhi)]; [done|].
  destruct (isnan x) eqn:Hn.
  { by destruct x. }
  rewrite (flt_total x m); auto. apply fsub_self_ratio.
Qed.

Lemma filter_none {A} (P : A -> Prop) `{!forall x, Decision (P x)} (l : list A) :
  (forall x, x ∈ l -> ~ P x) -> filter P l = [].
Proof.
  induction l as [|x l IH]; intros Hl; [done|].
  rewrite filter_cons_False by (apply Hl; by left).
  apply IH. intros y Hy. apply Hl. by right.
Qed.

Lemma neighbours_zero (img : list (list Z)) (p : Z * Z) :
  Forall (Forall (eq 0%Z)) img -> p ∈ neighbours img -> p = (0, 0)%Z.
Proof.
  intros Hall (row & Hp & Hrow)%list_elem_of_bind.
  rewrite list.Forall_forall in Hall. specialize (Hall row Hrow).
  rewrite list.Forall_forall in Hall. destruct p as [a b].
  pose proof (elem_of_zip_l _ _ _ _ Hp) as Ha.
  pose proof (elem_of_zip_r _ _ _ _ Hp) as Hb.
  assert (Hb' : b ∈ row).
  { destruct row as [|r0 row]; [done|]. simpl in Hb. by right. }
  by rewrite <- (Hall a Ha), <- (Hall b Hb').
Qed.

Lemma cooccurrence_zero (img : list (list Z)) (i j : Z) :
  Forall (Forall (eq 0%Z)) img -> (i, j) <> (0, 0)%Z -> cooccurrence img i j = 0%Z.
Proof.
  intros Hall Hij. unfold cooccurrence. rewrite filter_none; [done|].
  intros p Hp ->. by apply neighbours_zero in Hp.
Qed.

Lemma Qc_sum_zero (l : list Qc) : Forall (eq 0) l -> Qc_sum l = 0.
Proof.
  induction 1 as [|x l <- _ IH]; [done|]. simpl. rewrite IH. by vm_compute.
Qed.

(** An image of zeros has contrast 0. *)
Lemma contrast_of_zeros (img : list (list Z)) :
  Forall (Forall (eq 0%Z)) img -> contrast_of img = 0.
Proof.
  intros Hall. unfold contrast_of. apply Qc_sum_zero, list.Forall_forall.
  intros t (i & Ht & _)%list_elem_of_bind.
  apply list_elem_of_fmap in Ht as (j & -> & _).
  destruct (decide (i = j)) as [-> | Hne].
  - rewrite Z.sub_diag. simpl. symmetry. apply Qcmult_0_r.
  - unfold glcm_sym. rewrite !cooccurrence_zero by (done || congruence).
    simpl. unfold Qcdiv. change (of_Z 0) with 0. by rewrite !Qcmult_0_l.
Qed.

Lemma Forall_zeros (patch : grid) :
  Forall (Forall (eq 0%Z))
         (fmap (M:=list) (fmap (M:=list) (fun _ : npfloat => 0%Z)) patch).
Proof.
  apply Forall_fmap, Forall_true. intros row. simpl.
  apply Forall_fmap, Forall_true. done.
Qed.

(** C6 (amended): when the sub-window has zero dynamic range the texture
    step raises nothing; every normalized value is 0/0, replaced by 0, so
    the quantized patch is all zero and the contrast is 0. *)
Theorem texture_patch_degenerate (patch : grid) (m : npfloat) :
  nanmin patch = Ok m -> nanmax patch = Ok m ->
  texture_patch patch
  = Ok (fmap (M:=list) (fmap (M:=list) (fun _ => 0%Z)) patch, 0).
Proof.
  intros Hmin Hmax. unfold texture_patch, patch_uint8, norm_patch.
  rewrite Hmin, Hmax. simpl. rewrite gmap_compose.
  rewrite (img_as_ubyte_gmap _ (fun _ => 0%Z)).
  - simpl. by rewrite contrast_of_zeros by apply Forall_zeros.
  - intros x Hx. simpl. by rewrite (degenerate_norm patch m x).
Qed.

Lemma texture_patch_degenerate_witness :
  texture_patch [[Fin (of_Z (-12)); NaN]; [Fin (of_Z (-12)); Fin (of_Z (-12))]]
  = Ok ([[0; 0]; [0; 0]]%Z, 0).
Proof.
  exact (texture_patch_degenerate
           [[Fin (of_Z (-12)); NaN]; [Fin (of_Z (-12)); Fin (of_Z (-12))]]
           (Fin (of_Z (-12))) eq_refl eq_refl).
Defined.

(** C6 (the claim fails): a 2 x 2 sub-window of constant value has equal
    minimum and maximum, and the texture step returns. *)
Lemma texture_patch_constant_returns :
  nanmin (full 2 2 (Fin 0)) = Ok (Fin 0) /\
  nanmax (full 2 2 (Fin 0)) = Ok (Fin 0) /\
  texture_patch (full 2 2 (Fin 0)) = Ok ([[0; 0]; [0; 0]]%Z, 0).
Proof. split_and!; by vm_compute. Qed.

Lemma finite_between (lo hi : Qc) (x : npfloat) :
  isnan x = false -> flt x (Fin lo) = false -> flt (Fin hi) x = false ->
  exists q, x = Fin q /\ lo <= q /\ q <= hi.
Proof.
  destruct x as [|[]|q]; simpl; try done.
  intros _ H1%bool_decide_eq_false_1 H2%bool_decide_eq_false_1.
  exists q. split_and!; [done|by apply Qcnot_lt_le..].
Qed.

Lemma ubyte_of_zero : ubyte_of (Fin 0) = Ok 0%Z.
Proof. by vm_compute. Qed.

Lemma ubyte_of_normalized (lo hi q : Qc) :
  lo < hi -> lo <= q -> q <= hi ->
  ubyte_of (nan_to_num 0 (fdiv (fsub (Fin q) (Fin lo)) (fsub (Fin hi) (Fin lo))))
  = Ok (level lo hi (Fin q)).
Proof.
  intros Hlh Hlo Hhi. simpl.
  assert (Hd : hi + - lo <> 0).
  { intros Hd. qc2q. lra. }
  rewrite (bool_decide_eq_false_2 _ Hd). simpl.
  assert (Hr : 0 <= (q + - lo) / (hi + - lo) /\ (q + - lo) / (hi + - lo) <= 1).
  { clear Hd. qc2q. change (this 1) with 1%Q.
    assert (0 < this hi + - this lo)%Q by lra. split.
    - apply Qle_shift_div_l; [done|]. lra.
    - apply Qle_shift_div_r; [done|]. lra. }
  destruct Hr as [H0 H1].
  rewrite !bool_decide_eq_false_2; [done| |].
  - by apply Qcle_not_lt.
  - apply Qcle_not_lt. eapply Qcle_trans; [|exact H0]. by vm_compute.
Qed.

(** C7 (amended): the bounds of the normalization are the least and the
    greatest of the values that are not no-data; no-data is replaced by 0
    after the normalization, so that a no-data element gets level 0 and a
    finite element [q] gets the level of [(q - lo) / (hi - lo)] rounded on
    0 .. 255. *)
Theorem patch_uint8_bounds_skip_nodata (patch : grid) (lo hi : Qc) :
  nanmin patch = Ok (Fin lo) -> nanmax patch = Ok (Fin hi) -> lo < hi ->
  Fin lo ∈ ravel patch /\ Fin hi ∈ ravel patch /\
  (forall x, x ∈ ravel patch ->
     x = NaN \/ exists q, x = Fin q /\ lo <= q /\ q <= hi) /\
  patch_uint8 patch = Ok (fmap (M:=list) (fmap (M:=list) (level lo hi)) patch).
Proof.
  intros Hmin Hmax Hlh.
  destruct (nanmin_spec _ _ Hmin) as [[? _] | (_ & Hlo_in & Hlo)]; [done|].
  destruct (nanmax_spec _ _ Hmax) as [[? _] | (_ & Hhi_in & Hhi)]; [done|].
  assert (Hall : forall x, x ∈ ravel patch ->
                   x = NaN \/ exists q, x = Fin q /\ lo <= q /\ q <= hi).
  { intros x Hx. destruct (isnan x) eqn:Hn; [left; by destruct x|].
    right. apply finite_between; auto. }
  split_and!; try done.
  unfold patch_uint8, norm_patch. rewrite Hmin, Hmax. simpl.
  rewrite gmap_compose. apply img_as_ubyte_gmap.
  intros x Hx. destruct (Hall x Hx) as [-> | (q & -> & H1 & H2)].
  - apply ubyte_of_zero.
  - by apply ubyte_of_normalized.
Qed.

Lemma patch_uint8_bounds_skip_nodata_witness :
  patch_uint8 [[NaN; Fin (of_Z (-20)); Fin (of_Z (-10))]]
  = Ok (fmap (M:=list) (fmap (M:=list) (level (of_Z (-20)) (of_Z (-10))))
          [[NaN; Fin (of_Z (-20)); Fin (of_Z (-10))]]).
Proof.
  exact (proj2 (proj2 (proj2
           (patch_uint8_bounds_skip_nodata
              [[NaN; Fin (of_Z (-20)); Fin (of_Z (-10))]]
              (of_Z (-20)) (of_Z (-10)) eq_refl eq_refl eq_refl)))).
Defined.

(** C7 (the claim fails): on a patch with one no-data element the code
    and the normalization worded in the specification give different
    levels. *)
Lemma patch_uint8_differs_from_spec :
  patch_uint8 [[NaN; Fin (of_Z (-20)); Fin (of_Z (-10))]]
    = Ok [[0; 0; 255]]%Z /\
  patch_uint8_spec [[NaN; Fin (of_Z (-20)); Fin (of_Z (-10))]]
    = Ok [[255; 0; 128]]%Z.
Proof. split; by vm_compute. Qed.

End RadarProofs.

(** ** Optical pipeline *)

Module OpticalProofs.
Import Optical.

(** *** The vegetation index *)

Lemma reflectance_nonneg (x : npfloat) :
  nonneg x -> nonneg (fdiv x (Fin scaling_factor)).
Proof.
  intros (q & -> & Hq). exists (q / scaling_factor). split; [done|].
  unfold scaling_factor. qc2q. change (inject_Z 10000) with (10000 # 1)%Q.
  apply Qle_shift_div_l; lra.
Qed.

Lemma epsilon_pos : 0 < epsilon.
Proof. done. Qed.

Lemma ndvi_px_finite (n r : Qc) :
  0 <= n -> 0 <= r -> ndvi_px (Fin n) (Fin r) = Fin ((n - r) / (n + r + epsilon)).
Proof.
  intros Hn Hr. unfold ndvi_px. simpl.
  rewrite bool_decide_eq_false_2; [done|].
  pose proof epsilon_pos as He. intros H. qc2q. lra.
Qed.

Lemma ndvi_px_bounded (nir red : npfloat) :
  nonneg nir -> nonneg red -> unit_range (ndvi_px nir red).
Proof.
  intros (n & -> & Hn) (r & -> & Hr). rewrite ndvi_px_finite by done.
  eexists. split; [done|]. pose proof epsilon_pos as He. qc2q.
  change (this 1) with 1%Q.
  assert (0 < this n + this r + this epsilon)%Q by lra. split.
  - apply Qle_shift_div_l; [done|]. lra.
  - apply Qle_shift_div_r; [done|]. lra.
Qed.

Lemma vegetation_index_defined (red nir : grid) :
  shape_of nir = shape_of red ->
  vegetation_index red nir
    = Ok (zip_with (zip_with ndvi_px) (reflectance nir) (reflectance red)) /\
  shape_of (zip_with (zip_with ndvi_px) (reflectance nir) (reflectance red))
    = shape_of red.
Proof.
  intros Hshape. unfold vegetation_index, ndvi, elementwise, reflectance.
  rewrite decide_True by (by rewrite !shape_of_gmap). split; [done|].
  rewrite shape_of_zip_with by (by rewrite !shape_of_gmap).
  apply shape_of_gmap.
Qed.

Lemma index_unit_range (red nir : grid) :
  Forall (Forall nonneg) red -> Forall (Forall nonneg) nir ->
  Forall (Forall unit_range)
         (zip_with (zip_with ndvi_px) (reflectance nir) (reflectance red)).
Proof.
  intros Hred Hnir. unfold reflectance, gmap.
  apply (Forall_zip_with (Forall nonneg) (Forall nonneg)).
  - intros rn rr. apply Forall_zip_with, ndvi_px_bounded.
  - apply Forall_fmap. eapply list.Forall_impl; [exact Hnir|].
    intros row Hrow. simpl. apply Forall_fmap.
    eapply list.Forall_impl; [exact Hrow|]. apply reflectance_nonneg.
  - apply Forall_fmap. eapply list.Forall_impl; [exact Hred|].
    intros row Hrow. simpl. apply Forall_fmap.
    eapply list.Forall_impl; [exact Hrow|]. apply reflectance_nonneg.
Qed.

Lemma gget_reflectance (band : grid) (i j : nat) :
  gget (reflectance band) i j
  = (fun x => fdiv x (Fin scaling_factor)) <$> gget band i j.
Proof.
  unfold reflectance, gget, gmap. rewrite list_lookup_fmap.
  destruct (band !! i) as [row|]; simpl; [|done]. by rewrite list_lookup_fmap.
Qed.

(** Each pixel of the index is the formula at the two reflectances of
    the pixel. *)
Lemma gget_index (red nir : grid) (i j : nat) (n r : npfloat) :
  gget nir i j = Some n -> gget red i j = Some r ->
  gget (zip_with (zip_with ndvi_px) (reflectance nir) (reflectance red)) i j
  = Some (ndvi_px (fdiv n (Fin scaling_factor)) (fdiv r (Fin scaling_factor))).
Proof.
  intros Hn Hr. rewrite gget_zip_with.
  pose proof (gget_reflectance nir i j) as En.
  pose proof (gget_reflectance red i j) as Er.
  rewrite Hn in En. rewrite Hr in Er. unfold gget in En, Er.
  destruct (reflectance nir !! i) as [rn|]; simpl in En; [|done].
  destruct (reflectance red !! i) as [rr|]; simpl in Er; [|done].
  simpl. rewrite En. simpl. by rewrite Er.
Qed.

(** C8: on windows of finite non-negative values of the same shape the
    index is computed, every element lies between -1 and 1, and the
    element at each pixel is the formula at the two reflectances of that
    pixel; the formula is 0 for equal positive bands, within
    [epsilon / nir] below 1 when red is 0, and within [epsilon / red]
    above -1 when NIR is 0. *)
Theorem vegetation_index_bounded (red nir : grid) :
  shape_of nir = shape_of red ->
  Forall (Forall nonneg) red -> Forall (Forall nonneg) nir ->
  (exists idx, vegetation_index red nir = Ok idx /\
               shape_of idx = shape_of red /\
               Forall (Forall unit_range) idx /\
               (forall i j n r,
                  gget nir i j = Some n -> gget red i j = Some r ->
                  gget idx i j
                  = Some (ndvi_px (fdiv n (Fin scaling_factor))
                                  (fdiv r (Fin scaling_factor))))) /\
  (forall x, 0 < x -> ndvi_px (Fin x) (Fin x) = Fin 0) /\
  (forall n, 0 < n ->
     exists q, ndvi_px (Fin n) (Fin 0) = Fin q /\ 1 - epsilon / n < q /\ q < 1) /\
  (forall r, 0 < r ->
     exists q, ndvi_px (Fin 0) (Fin r) = Fin q /\ - 1 < q /\ q < - 1 + epsilon / r).
Proof.
  intros Hshape Hred Hnir. pose proof epsilon_pos as He. split_and!.
  - destruct (vegetation_index_defined red nir Hshape) as [Hdef Hs].
    eexists. split_and!; [exact Hdef|exact Hs| |].
    + by apply index_unit_range.
    + intros i j n r. apply gget_index.
  - intros x Hx. apply Qclt_le_weak in Hx. rewrite ndvi_px_finite by done.
    f_equal. qc2q. unfold Qdiv. ring.
  - intros n Hn. pose proof (Qclt_le_weak _ _ Hn) as Hn'.
    rewrite ndvi_px_finite by done.
    eexists. split; [done|]. qc2q. change (this 1) with 1%Q.
    set (t := (this epsilon / this n)%Q).
    assert (Ht : (t * this n == this epsilon)%Q) by (unfold t; field; lra).
    assert (Htpos : (0 < t)%Q) by (apply Qlt_shift_div_l; lra).
    assert (Hte : (0 < t * this epsilon)%Q) by (apply Qmult_lt_0_compat; lra).
    split.
    + apply Qlt_shift_div_l; [lra|]. nra.
    + apply Qlt_shift_div_r; [lra|]. lra.
  - intros r Hr. pose proof (Qclt_le_weak _ _ Hr) as Hr'.
    rewrite ndvi_px_finite by done.
    eexists. split; [done|]. qc2q. change (this 1) with 1%Q.
    set (t := (this epsilon / this r)%Q).
    assert (Ht : (t * this r == this epsilon)%Q) by (unfold t; field; lra).
    assert (Htpos : (0 < t)%Q) by (apply Qlt_shift_div_l; lra).
    assert (Hte : (0 < t * this epsilon)%Q) by (apply Qmult_lt_0_compat; lra).
    split.
    + apply Qlt_shift_div_l; [lra|]. lra.
    + apply Qlt_shift_div_r; [lra|]. nra.
Qed.

Lemma vegetation_index_bounded_witness :
  exists idx,
    vegetation_index [[Fin (of_Z 1000); Fin 0]] [[Fin (of_Z 3000); Fin (of_Z 2000)]]
      = Ok idx /\
    shape_of idx = shape_of [[Fin (of_Z 1000); Fin 0]] /\
    Forall (Forall unit_range) idx /\
    (forall i j n r,
       gget [[Fin (of_Z 3000); Fin (of_Z 2000)]] i j = Some n ->
       gget [[Fin (of_Z 1000); Fin 0]] i j = Some r ->
       gget idx i j
       = Some (ndvi_px (fdiv n (Fin scaling_factor)) (fdiv r (Fin scaling_factor)))).
Proof.
  apply (proj1 (vegetation_index_bounded
                  [[Fin (of_Z 1000); Fin 0]]
                  [[Fin (of_Z 3000); Fin (of_Z 2000)]] eq_refl
                  ltac:(repeat first [apply Forall_nil_2 | apply Forall_cons_2
                                     | (eexists; split; [reflexivity | by vm_compute])])
                  ltac:(repeat first [apply Forall_nil_2 | apply Forall_cons_2
                                     | (eexists; split; [reflexivity | by vm_compute])]))).
Defined.

(** *** The cloud mask *)

#[local] Arguments isin : simpl never.

Lemma feqb_eq (a b : npfloat) : isnan b = false -> feqb a b = true <-> a = b.
Proof.
  destruct a as [|s|x], b as [|t|y]; simpl; try done.
  - intros _. rewrite bool_decide_eq_true. split; congruence.
  - intros _. rewrite bool_decide_eq_true. split; congruence.
Qed.

(** [np.isin] against the excluded classes is membership in the list. *)
Lemma isin_excluded (c : npfloat) : isin excluded c = true <-> c ∈ excluded.
Proof.
  unfold isin. rewrite existsb_exists. setoid_rewrite <- list_elem_of_In. split.
  - intros (e & He & Heq). apply feqb_eq in Heq; [by subst|].
    unfold excluded in He. apply list_elem_of_fmap in He as (z & -> & _). done.
  - intros Hc. exists c. split; [done|]. apply feqb_eq; [|done].
    unfold excluded in Hc. apply list_elem_of_fmap in Hc as (z & -> & _). done.
Qed.

Lemma gmap_id_on (f : npfloat -> npfloat) (a : grid) :
  (forall x, f x = x) -> gmap f a = a.
Proof.
  intros H. unfold gmap. rewrite <- (list_fmap_id a) at 2.
  apply list_fmap_ext. intros _ row _. simpl.
  rewrite <- (list_fmap_id row) at 2. by apply list_fmap_ext.
Qed.

Lemma zip_with_all {A} (P : A -> Prop) (f : A -> npfloat -> npfloat)
    (g : npfloat -> npfloat) (a : list (list A)) (b : grid) :
  shape_of a = shape_of b ->
  (forall x v, P x -> f x v = g v) ->
  Forall (Forall P) a ->
  zip_with (zip_with f) a b = gmap g b.
Proof.
  intros Hs Hf Ha. revert b Hs.
  induction Ha as [|ra a Hra _ IH]; intros [|rb b]; try done.
  intros [= Hr Hs]. simpl. f_equal; [|by apply IH].
  clear IH Hs. revert rb Hr.
  induction Hra as [|x ra Hx _ IH]; intros [|v rb]; try done.
  intros [= Hr]. simpl. f_equal; [by apply Hf | by apply IH].
Qed.

Lemma isin_bool_decide (c : npfloat) :
  isin excluded c = bool_decide (c ∈ excluded).
Proof.
  destruct (isin excluded c) eqn:E.
  - symmetry. by apply bool_decide_eq_true_2, isin_excluded.
  - symmetry. apply bool_decide_eq_false_2. intros H%isin_excluded. congruence.
Qed.

Lemma shape_of_cloud_mask (scl : grid) : shape_of (cloud_mask scl) = shape_of scl.
Proof.
  unfold shape_of, cloud_mask. rewrite <- list_fmap_compose.
  apply list_fmap_ext. intros _ row _. simpl. apply length_fmap.
Qed.

Lemma cloud_mask_zip (scl idx : grid) :
  zip_with (zip_with (fun (m : bool) v => if m then NaN else v)) (cloud_mask scl) idx
  = zip_with (zip_with (fun c v => if isin excluded c then NaN else v)) scl idx.
Proof.
  unfold cloud_mask. revert idx.
  induction scl as [|row scl IH]; intros [|r idx]; try done.
  rewrite fmap_cons. simpl. f_equal; [|apply IH].
  by rewrite zip_with_fmap_l.
Qed.

(** C9: with bands of one shape and a classification raster of that
    shape, the pipeline returns the index itself and the masked index.  The
    masked index is not-a-number where the class is excluded and the
    element of the index everywhere else; on finite non-negative bands it
    is therefore not-a-number at exactly the excluded positions.  It is all
    not-a-number when every class is excluded and the index itself when
    none is. *)
Theorem cloud_mask_exact (red nir scl_resampled : grid) :
  shape_of nir = shape_of red ->
  shape_of scl_resampled = shape_of red ->
  exists idx masked,
    vegetation_index red nir = Ok idx /\
    process red nir scl_resampled = Ok (idx, masked) /\
    shape_of masked = shape_of idx /\
    (forall i j c v,
       gget scl_resampled i j = Some c -> gget idx i j = Some v ->
       gget masked i j = Some (if bool_decide (c ∈ excluded) then NaN else v)) /\
    (Forall (Forall nonneg) red -> Forall (Forall nonneg) nir ->
     forall i j c,
       gget scl_resampled i j = Some c ->
       (gget masked i j = Some NaN <-> c ∈ excluded)) /\
    (Forall (Forall (fun c => c ∈ excluded)) scl_resampled ->
       masked = gmap (fun _ => NaN) idx) /\
    (Forall (Forall (fun c => c ∉ excluded)) scl_resampled -> masked = idx).
Proof.
  intros Hbands Hscl.
  destruct (vegetation_index_defined red nir Hbands) as [Hidx Hs].
  set (idx := zip_with (zip_with ndvi_px) (reflectance nir) (reflectance red)) in *.
  assert (Hshape : shape_of scl_resampled = shape_of idx) by congruence.
  exists idx. unfold process. rewrite Hidx. simpl.
  unfold ndvi_masked, elementwise.
  rewrite decide_True by (by rewrite shape_of_cloud_mask).
  simpl. eexists. split; [done|]. split; [done|].
  rewrite cloud_mask_zip.
  set (masked := zip_with (zip_with (fun c v => if isin excluded c then NaN else v))
                          scl_resampled idx).
  assert (Hpt : forall i j c v,
             gget scl_resampled i j = Some c -> gget idx i j = Some v ->
             gget masked i j = Some (if bool_decide (c ∈ excluded) then NaN else v)).
  { intros i j c v Hc Hv. unfold masked. rewrite gget_zip_with.
    unfold gget in Hc, Hv.
    destruct (scl_resampled !! i) as [ra|]; simpl in *; [|done].
    destruct (idx !! i) as [rb|]; simpl in *; [|done].
    rewrite Hc, Hv. simpl. by rewrite isin_bool_decide. }
  split_and!.
  - by apply shape_of_zip_with.
  - exact Hpt.
  - intros Hred Hnir i j c Hc.
    destruct (shape_of_gget _ _ i j Hshape) as [v Hv]; [by exists c|].
    rewrite (Hpt i j c v Hc Hv).
    pose proof (index_unit_range red nir Hred Hnir) as Hrange.
    destruct (Forall_gget _ _ _ _ _ Hrange Hv) as (q & -> & _).
    case_bool_decide; split; done.
  - apply zip_with_all; [done|]. intros c v Hc.
    by rewrite isin_bool_decide, bool_decide_eq_true_2.
  - intros Hnone. transitivity (gmap id idx); [|by apply gmap_id_on].
    revert Hnone. apply zip_with_all; [done|]. intros c v Hc.
    by rewrite isin_bool_decide, bool_decide_eq_false_2.
Qed.

Lemma cloud_mask_exact_witness :
  exists idx masked,
    process [[Fin (of_Z 1000); Fin 0]] [[Fin (of_Z 3000); Fin (of_Z 2000)]]
            [[Fin (of_Z 4); Fin (of_Z 9)]] = Ok (idx, masked) /\
    gget masked 0 0 = gget idx 0 0 /\
    gget masked 0 1 = Some NaN.
Proof.
  destruct (cloud_mask_exact
              [[Fin (of_Z 1000); Fin 0]] [[Fin (of_Z 3000); Fin (of_Z 2000)]]
              [[Fin (of_Z 4); Fin (of_Z 9)]] eq_refl eq_refl)
    as (idx & masked & Hidx & Hrun & _ & Hpt & _).
  exists idx, masked. split; [exact Hrun|].
  injection Hidx as <-. split.
  - by rewrite (Hpt 0%nat 0%nat _ _ eq_refl eq_refl).
  - by rewrite (Hpt 0%nat 1%nat _ _ eq_refl eq_refl).
Defined.

(** The run of the example: vegetation (class 4) is kept, high cloud
    (class 9) is masked. *)
Example process_example :
  snd <$> (match process [[Fin (of_Z 1000); Fin 0]]
                         [[Fin (of_Z 3000); Fin (of_Z 2000)]]
                         [[Fin (of_Z 4); Fin (of_Z 9)]] with
           | Ok out => Some out
           | Raise _ => None
           end)
  = Some [[ndvi_px (Fin (of_Z 3000 / of_Z 10000)) (Fin (of_Z 1000 / of_Z 10000)); NaN]].
Proof. by vm_compute. Qed.

End OpticalProofs.


(** ** More on the selection of the best pair *)

Module SelectorMore.
Import Selector.
Section Geometry.

Context {Product Geometry : Type}.
Context (shape : Product -> Geometry).
Context (intersection : Geometry -> Geometry -> Geometry).
Context (is_empty : Geometry -> bool).
Context (area : Geometry -> Qc).

Abbreviation body :=
  (Selector.body Product Geometry shape intersection is_empty area).
Abbreviation outer_loop :=
  (Selector.outer_loop Product Geometry shape intersection is_empty area).
Abbreviation run_pairs :=
  (Selector.run_pairs Product Geometry shape intersection is_empty area).
Abbreviation selectBestPair :=
  (Selector.selectBestPair Product Geometry shape intersection is_empty area).
Abbreviation score := (Selector.score Product Geometry shape intersection area).
Abbreviation update := (Selector.update Product Geometry shape intersection area).
Abbreviation iteration_order := (Selector.iteration_order Product).
Abbreviation state := (Selector.state Product).

Implicit Types (p q : Product * Product) (st : state).

(** A combination on which the division of line 133 has a zero divisor. *)
Abbreviation zero_divisor p :=
  (is_empty (intersection (shape p.1) (shape p.2)) = false /\
   area (shape p.2) = 0).

Lemma body_raise s1 s2 st e :
  body s1 s2 st = Raise e <-> e = ZeroDivisionError /\ zero_divisor (s1, s2).
Proof.
  unfold Selector.body, Selector.pydiv. simpl.
  destruct (is_empty (intersection (shape s1) (shape s2))); simpl.
  - split; [done | by intros (_ & ? & _)].
  - case_bool_decide as Ha; simpl.
    + split; [by intros [= <-] | by intros [-> _]].
    + case_bool_decide; (split; [done | by intros (_ & _ & ?)]).
Qed.

Lemma run_pairs_raise l st e :
  run_pairs l st = Raise e <->
  e = ZeroDivisionError /\ exists p, p ∈ l /\ zero_divisor p.
Proof.
  revert st. induction l as [|p l IH]; intros st; simpl.
  { split; [done|]. intros (_ & q & Hq%elem_of_nil & _). done. }
  destruct (body p.1 p.2 st) as [st'|e'] eqn:Hb; simpl.
  - rewrite IH. split; intros (-> & q & Hq & Hz); (split; [done|]).
    + exists q. split; [by right | done].
    + apply elem_of_cons in Hq as [-> | Hq]; [|by exists q].
      assert (Hr : body p.1 p.2 st = Raise ZeroDivisionError).
      { apply body_raise. split; [done|]. by destruct p. }
      congruence.
  - apply body_raise in Hb as [-> Hz]. split.
    + intros [= <-]. split; [done|]. exists p. split; [by left|]. by destruct p.
    + by intros [-> _].
Qed.

(** X1: the selection stops with [ZeroDivisionError] exactly when some
    combination has a non-empty intersection with an optical footprint of
    area 0; nothing else makes the division of line 133 fail. *)
Theorem selectBestPair_zero_division data_s1 data_s2 :
  selectBestPair data_s1 data_s2 = Raise ZeroDivisionError <->
  exists p, p ∈ iteration_order data_s1 data_s2 /\
            is_empty (intersection (shape p.1) (shape p.2)) = false /\
            area (shape p.2) = 0.
Proof.
  unfold Selector.selectBestPair.
  rewrite (SelectorProofs.outer_loop_run shape intersection is_empty area).
  destruct (run_pairs (iteration_order data_s1 data_s2) (Selector.init Product))
    as [st|e] eqn:Hrun; simpl.
  - split.
    + by destruct (st.1).
    + intros Hz.
      assert (Hr : run_pairs (iteration_order data_s1 data_s2)
                     (Selector.init Product) = Raise ZeroDivisionError)
        by (by apply run_pairs_raise).
      congruence.
  - apply run_pairs_raise in Hrun as [-> Hz]. done.
Qed.

(** What the polygon library guarantees: an empty geometry has area 0. *)
Hypothesis empty_area : forall g, is_empty g = true -> area g = 0.

(** The state after the two loops, when no optical footprint has area 0. *)
Lemma final_state data_s1 data_s2 :
  Forall (fun s2 => 0 < area (shape s2)) data_s2 ->
  let l := iteration_order data_s1 data_s2 in
  exists st,
    outer_loop data_s1 data_s2 (Selector.init Product) = Ok st /\
    (forall q, q ∈ l -> score q <= st.2) /\
    (st = Selector.init Product \/
     exists best, best ∈ l /\ st = (Some best, score best) /\ 0 < score best).
Proof.
  intros Hareas l.
  rewrite (SelectorProofs.outer_loop_run shape intersection is_empty area).
  rewrite (SelectorProofs.run_pairs_foldl shape intersection is_empty area empty_area);
    [|by apply SelectorProofs.iteration_order_areas|apply Qcle_refl].
  eexists. split; [done|]. fold l.
  destruct (SelectorProofs.foldl_update_first_max shape intersection area l
              (Selector.init Product))
    as [[Heq Hall] | (before & best & after & Hsplit & Heq & Hgt & Hb & Ha)];
    rewrite Heq.
  - split; [exact Hall | by left].
  - split.
    + intros q Hq. rewrite Hsplit in Hq. simpl.
      apply elem_of_app in Hq as [Hq | [-> | Hq]%elem_of_cons].
      * by apply Qclt_le_weak, Hb.
      * apply Qcle_refl.
      * by apply Ha.
    + right. exists best. split_and!; [|done..].
      rewrite Hsplit. apply elem_of_app. right. by left.
Qed.

(** X2: when a pair is selected, the percentage printed at line 144
    ([best_overlap]) is the overlap score of that very pair, it is positive
    and no combination has a greater score. *)
Theorem best_overlap_is_score_of_best_pair data_s1 data_s2 best :
  Forall (fun s2 => 0 < area (shape s2)) data_s2 ->
  selectBestPair data_s1 data_s2 = Ok best ->
  outer_loop data_s1 data_s2 (Selector.init Product) = Ok (Some best, score best) /\
  0 < score best /\
  forall q, q ∈ iteration_order data_s1 data_s2 -> score q <= score best.
Proof.
  intros Hareas Hsel.
  destruct (final_state data_s1 data_s2 Hareas)
    as (st & Hrun & Hmax & [-> | (b & Hb & -> & Hpos)]);
    unfold Selector.selectBestPair in Hsel; rewrite Hrun in Hsel; simpl in Hsel.
  - done.
  - injection Hsel as <-. done.
Qed.

(** X3: the order of the catalogue results does not change the outcome in
    value: with the candidate lists permuted, the loops end with the same
    [best_overlap], and a pair is found for one order exactly when one is
    found for the other (only the pair kept on a tie may differ). *)
Theorem best_overlap_order_independent data_s1 data_s2 data_s1' data_s2' :
  data_s1 ≡ₚ data_s1' -> data_s2 ≡ₚ data_s2' ->
  Forall (fun s2 => 0 < area (shape s2)) data_s2 ->
  exists st st',
    outer_loop data_s1 data_s2 (Selector.init Product) = Ok st /\
    outer_loop data_s1' data_s2' (Selector.init Product) = Ok st' /\
    st.2 = st'.2 /\ (st.1 = None <-> st'.1 = None).
Proof.
  intros H1 H2 Hareas.
  assert (Hareas' : Forall (fun s2 => 0 < area (shape s2)) data_s2')
    by (by rewrite <- H2).
  assert (Hmem : forall q, q ∈ iteration_order data_s1 data_s2 <->
                           q ∈ iteration_order data_s1' data_s2').
  { intros q. rewrite !SelectorProofs.elem_of_iteration_order.
    by rewrite H1, H2. }
  destruct (final_state data_s1 data_s2 Hareas) as (st & Hrun & Hmax & Hst).
  destruct (final_state data_s1' data_s2' Hareas') as (st' & Hrun' & Hmax' & Hst').
  exists st, st'. split; [done|]. split; [done|].
  destruct Hst as [-> | (b & Hb & -> & Hpos)];
    destruct Hst' as [-> | (b' & Hb' & -> & Hpos')]; simpl in *.
  - done.
  - exfalso. apply Hmem, Hmax in Hb'. by apply Qcle_not_lt in Hb'.
  - exfalso. apply Hmem, Hmax' in Hb. by apply Qcle_not_lt in Hb.
  - split; [|done]. apply Qcle_antisym.
    + by apply Hmax', Hmem.
    + by apply Hmax, Hmem.
Qed.

(** What the polygon library guarantees: an intersection is not larger
    than its second operand. *)
Hypothesis intersection_area_le :
  forall a b, area (intersection a b) <= area b.

(** X4: a printed percentage never exceeds 100: the score of a combination
    whose optical footprint has a positive area is at most 100. *)
Theorem score_at_most_100 p :
  0 < area (shape p.2) -> score p <= of_Z 100.
Proof.
  intros Hpos. unfold Selector.score.
  pose proof (intersection_area_le (shape p.1) (shape p.2)) as Hle.
  set (a := area (intersection (shape p.1) (shape p.2))) in *.
  set (b := area (shape p.2)) in *. clearbody a b.
  qc2q. change (inject_Z 100) with (100 # 1)%Q.
  assert (this a / this b <= 1)%Q; [|lra].
  apply Qle_shift_div_r; lra.
Qed.

End Geometry.

Lemma rect_intersection_area_le (a b : Rect.geometry) :
  Rect.area (Rect.intersection a b) <= Rect.area b.
Proof.
  assert (Hnn : forall g, 0 <= Rect.area g).
  { intros [r|]; simpl; [|apply Qcle_refl].
    qc2q. change 0%Q with (inject_Z 0). rewrite <- Zle_Qle.
    apply Z.mul_nonneg_nonneg; lia. }
  destruct a as [r|], b as [s|];
    [|exact (Hnn None)|exact (Hnn (Some s))|exact (Hnn None)].
  unfold Rect.intersection, Rect.shape.
  destruct (Rect.wf _); [|exact (Hnn (Some s))].
  simpl. qc2q. rewrite <- Zle_Qle.
  apply Z.mul_le_mono_nonneg; lia.
Qed.

Lemma best_overlap_is_score_of_best_pair_witness :
  Selector.outer_loop _ _ Rect.shape Rect.intersection Rect.is_empty Rect.area
    [Rect.radar_a; Rect.radar_b] [Rect.optical_a; Rect.optical_b]
    (Selector.init Rect.rect)
  = Ok (Some (Rect.radar_a, Rect.optical_a),
        Selector.score _ _ Rect.shape Rect.intersection Rect.area
          (Rect.radar_a, Rect.optical_a)).
Proof.
  apply (best_overlap_is_score_of_best_pair
           Rect.shape Rect.intersection Rect.is_empty Rect.area
           SelectorProofs.rect_empty_area
           [Rect.radar_a; Rect.radar_b] [Rect.optical_a; Rect.optical_b]).
  - repeat constructor.
  - by vm_compute.
Defined.

Lemma best_overlap_order_independent_witness :
  exists st st',
    Selector.outer_loop _ _ Rect.shape Rect.intersection Rect.is_empty Rect.area
      [Rect.radar_a; Rect.radar_b] [Rect.optical_a; Rect.optical_b]
      (Selector.init Rect.rect) = Ok st /\
    Selector.outer_loop _ _ Rect.shape Rect.intersection Rect.is_empty Rect.area
      [Rect.radar_b; Rect.radar_a] [Rect.optical_b; Rect.optical_a]
      (Selector.init Rect.rect) = Ok st' /\
    st.2 = st'.2 /\ (st.1 = None <-> st'.1 = None).
Proof.
  apply (best_overlap_order_independent
           Rect.shape Rect.intersection Rect.is_empty Rect.area
           SelectorProofs.rect_empty_area).
  - apply Permutation_swap.
  - apply Permutation_swap.
  - repeat constructor.
Defined.

Lemma score_at_most_100_witness :
  Selector.score _ _ Rect.shape Rect.intersection Rect.area
    (Rect.radar_a, Rect.optical_a) <= of_Z 100.
Proof.
  apply (score_at_most_100 Rect.shape Rect.intersection Rect.area
           rect_intersection_area_le (Rect.radar_a, Rect.optical_a)).
  reflexivity.
Defined.

End SelectorMore.

(** ** More on the radar script *)

Module RadarMore.
Import Radar RadarViews.

Lemma gget_gmap (f : npfloat -> npfloat) (a : grid) (i j : nat) :
  gget (gmap f a) i j = f <$> gget a i j.
Proof.
  unfold gget, gmap. rewrite list_lookup_fmap.
  destruct (a !! i) as [row|]; simpl; [|done]. by rewrite list_lookup_fmap.
Qed.

(** *** Masking *)

(** X5: element by element, the two masking assignments replace the
    implausible values (and nothing else) by no-data; applying them to an
    already masked array changes nothing. *)
Theorem masking_keeps_plausible_values (g : grid) :
  (forall i j,
     gget (mask_above (mask_below g)) i j
     = (fun v => if in_range v then v else NaN) <$> gget g i j) /\
  mask_above (mask_below (mask_above (mask_below g)))
  = mask_above (mask_below g).
Proof.
  split.
  - intros i j. by rewrite RadarProofs.mask_gmap, gget_gmap.
  - rewrite !RadarProofs.mask_gmap, gmap_compose. apply gmap_ext.
    intros a. simpl. destruct (in_range a) eqn:Hr; [by rewrite Hr | done].
Qed.

(** X6: a pixel whose digital number is 0 always ends up as no-data:
    its decibel value is [10 * log10(1e-10) = -100], below the floor.  The
    hypothesis is the value of the logarithm at [1e-10]. *)
Theorem zero_digital_number_is_masked
    (log10 : npfloat -> npfloat) (vh_window : grid) (i j : nat) :
  log10 (Fin epsilon) = Fin (of_Z (-10)) ->
  gget vh_window i j = Some (Fin 0) ->
  gget (sigma0_db_window log10 vh_window) i j = Some NaN.
Proof.
  intros Hlog Hpx. unfold sigma0_db_window, mask_above, mask_below, to_db, sigma0_linear.
  rewrite !gget_gmap, Hpx. simpl.
  assert (H0 : 0 / scaling_factor + epsilon = epsilon).
  { unfold Qcdiv. by rewrite Qcmult_0_l, Qcplus_0_l. }
  rewrite H0, Hlog. by vm_compute.
Qed.

Lemma zero_digital_number_is_masked_witness :
  gget (sigma0_db_window log10_floor [[Fin (of_Z 10000); Fin 0]]) 0 1 = Some NaN.
Proof.
  apply zero_digital_number_is_masked; by vm_compute.
Defined.

(** *** The downsampled view *)

Lemma lookup_omap_seq {A} (f : nat -> option A) (s n i : nat) :
  (forall j, (j < n)%nat -> is_Some (f (s + j)%nat)) ->
  omap f (seq s n) !! i = if decide (i < n)%nat then f (s + i)%nat else None.
Proof.
  revert s i. induction n as [|n IH]; intros s i Hsome.
  { rewrite decide_False by lia. done. }
  cbn [seq omap list_omap].
  destruct (Hsome 0%nat) as [y Hy]; [lia|]. rewrite Nat.add_0_r in Hy.
  rewrite Hy. destruct i as [|i]; simpl.
  - by rewrite Nat.add_0_r.
  - rewrite IH.
    + repeat case_decide; try lia; try done. f_equal. lia.
    + intros j Hj. replace (S s + j)%nat with (s + S j)%nat by lia.
      apply Hsome. lia.
Qed.

Lemma stride_count (k len i : nat) :
  (0 < k)%nat -> (i < (len + k - 1) / k)%nat <-> (i * k < len)%nat.
Proof.
  intros Hk.
  pose proof (Nat.div_mod_eq (len + k - 1) k) as Hdm.
  pose proof (Nat.mod_upper_bound (len + k - 1) k ltac:(lia)) as Hr.
  set (c := ((len + k - 1) / k)%nat) in *.
  set (r := ((len + k - 1) mod k)%nat) in *. nia.
Qed.

Lemma lookup_stride {A} (k : nat) (l : list A) (i : nat) :
  (0 < k)%nat -> stride k l !! i = l !! (i * k)%nat.
Proof.
  intros Hk. unfold stride. rewrite lookup_omap_seq.
  - case_decide as Hi; [done|]. symmetry. apply lookup_ge_None.
    rewrite stride_count in Hi by done. lia.
  - intros j Hj. simpl. apply lookup_lt_is_Some. by apply stride_count.
Qed.

Lemma length_stride {A} (k : nat) (l : list A) :
  (0 < k)%nat -> length (stride k l) = ((length l + k - 1) / k)%nat.
Proof.
  intros Hk. set (n := ((length l + k - 1) / k)%nat).
  destruct (decide (length (stride k l) = n)) as [|Hne]; [done|].
  exfalso.
  destruct (decide (length (stride k l) < n)%nat) as [Hlt|Hge].
  - pose proof (lookup_stride k l (length (stride k l)) Hk) as Hl.
    rewrite (lookup_ge_None_2 (stride k l)) in Hl by lia.
    symmetry in Hl. apply lookup_ge_None in Hl.
    apply (stride_count k (length l)) in Hlt; [lia|done].
  - assert (Hn : (n < length (stride k l))%nat) by lia.
    apply lookup_lt_is_Some in Hn. rewrite lookup_stride in Hn by done.
    apply lookup_lt_is_Some in Hn.
    apply (stride_count k (length l)) in Hn; [|done]. fold n in Hn. lia.
Qed.

(** X7: the downsampled view shown in the first figure holds every fifth
    sample of every fifth row: its element [(i, j)] is element
    [(5 i, 5 j)] of the masked array (and it has one row for every five
    rows, rounded up). *)
Theorem sigma_small_samples (sigma0_db : grid) (i j : nat) :
  gget (sigma_small sigma0_db) i j = gget sigma0_db (5 * i) (5 * j) /\
  length (sigma_small sigma0_db) = ((length sigma0_db + 4) / 5)%nat.
Proof.
  unfold sigma_small, factor. split.
  - unfold gget. rewrite list_lookup_fmap, lookup_stride by lia.
    replace (i * 5)%nat with (5 * i)%nat by lia.
    destruct (sigma0_db !! (5 * i)%nat) as [row|]; simpl; [|done].
    rewrite lookup_stride by lia. f_equal. lia.
  - rewrite length_fmap, length_stride by lia. f_equal. lia.
Qed.

(** *** The Lee filter keeps the shape *)

(** X8: on a rectangular window the filtered raster has the shape of the
    input. *)
Theorem lee_filtered_shape (db : grid) (r c : nat) :
  shape_of db = replicate r c -> shape_of (lee_filtered db) = replicate r c.
Proof.
  intros Hs. unfold lee_filtered, put_nan, gmap2.
  assert (Hl : shape_of (lee_unmasked (temp_of db)) = replicate r c).
  { apply RadarProofs.shape_of_lee_unmasked. unfold temp_of.
    by rewrite shape_of_gmap. }
  rewrite shape_of_zip_with; congruence.
Qed.

Lemma lee_filtered_shape_witness :
  shape_of (lee_filtered [[Fin 0; NaN; Fin 1]; [Fin 1; Fin 0; NaN]])
  = replicate 2 3.
Proof. by apply lee_filtered_shape. Defined.

(** *** The Lee filter on rationals: a convex combination

    With the exact arithmetic of the embedding the local variance is
    not negative and the weight lies between 0 and 1; the lemmas below
    serve the texture step, which only needs the output of the filter to
    be no-data or finite. *)

Lemma mean5_within (lo hi : Qc) (x1 x2 x3 x4 x5 : npfloat) :
  within lo hi x1 -> within lo hi x2 -> within lo hi x3 ->
  within lo hi x4 -> within lo hi x5 ->
  within lo hi (fdiv (fadd (fadd (fadd (fadd x1 x2) x3) x4) x5) (Fin (of_Z 5))).
Proof.
  intros (a1 & -> & L1 & U1) (a2 & -> & L2 & U2) (a3 & -> & L3 & U3)
         (a4 & -> & L4 & U4) (a5 & -> & L5 & U5).
  simpl. eexists. split; [done|]. qc2q.
  change (inject_Z 5) with (5 # 1)%Q. unfold Qdiv.
  change (/ (5 # 1))%Q with (1 # 5)%Q. split; lra.
Qed.

Lemma within_finite (lo hi : Qc) (x : npfloat) : within lo hi x -> finite x.
Proof. intros (q & -> & _). by exists q. Qed.

Lemma uniform_filter_row_within (lo hi : Qc) (row : list npfloat) :
  Forall (within lo hi) row -> Forall (within lo hi) (uniform_filter_row row).
Proof.
  intros H. unfold uniform_filter_row. apply Forall_fmap, list.Forall_forall.
  intros i [_ Hi]%elem_of_seq. simpl in Hi. unfold compose.
  assert (Hk : forall k, exists x,
             row !! reflect_index (length row) k = Some x /\ within lo hi x).
  { intros k.
    destruct (lookup_lt_is_Some_2 row (reflect_index (length row) k)) as [x Hx].
    { apply RadarProofs.reflect_index_lt. lia. }
    exists x. split; [done|]. by eapply Forall_lookup_1. }
  unfold window5, fsum. cbn [fmap list_fmap foldl].
  destruct (Hk (Z.of_nat i + -2)%Z) as (x1 & -> & H1).
  destruct (Hk (Z.of_nat i + -1)%Z) as (x2 & -> & H2).
  destruct (Hk (Z.of_nat i + 0)%Z) as (x3 & -> & H3).
  destruct (Hk (Z.of_nat i + 1)%Z) as (x4 & -> & H4).
  destruct (Hk (Z.of_nat i + 2)%Z) as (x5 & -> & H5).
  cbn [default from_option].
  rewrite RadarProofs.fadd_0_l by (by eapply within_finite).
  by apply mean5_within.
Qed.

Lemma row_mean5_within (lo hi : Qc) (r1 r2 r3 r4 r5 : list npfloat) :
  Forall (within lo hi) r1 -> Forall (within lo hi) r2 ->
  Forall (within lo hi) r3 -> Forall (within lo hi) r4 ->
  Forall (within lo hi) r5 ->
  Forall (within lo hi)
         ((fun x => fdiv x (Fin (of_Z 5))) <$> row_sum [r1; r2; r3; r4; r5]).
Proof.
  intros H1 H2 H3 H4 H5. apply Forall_lookup. intros j y Hy.
  rewrite list_lookup_fmap in Hy. simpl in Hy. unfold row_add in Hy.
  rewrite !lookup_zip_with in Hy.
  destruct (r1 !! j) as [x1|] eqn:E1; [|done].
  destruct (r2 !! j) as [x2|] eqn:E2; [|done].
  destruct (r3 !! j) as [x3|] eqn:E3; [|done].
  destruct (r4 !! j) as [x4|] eqn:E4; [|done].
  destruct (r5 !! j) as [x5|] eqn:E5; [|done].
  simpl in Hy. injection Hy as <-.
  apply mean5_within;
    [ exact (Forall_lookup_1 _ _ _ _ H1 E1) | exact (Forall_lookup_1 _ _ _ _ H2 E2)
    | exact (Forall_lookup_1 _ _ _ _ H3 E3) | exact (Forall_lookup_1 _ _ _ _ H4 E4)
    | exact (Forall_lookup_1 _ _ _ _ H5 E5) ].
Qed.

Lemma uniform_filter_within (lo hi : Qc) (g : grid) :
  Forall (Forall (within lo hi)) g ->
  Forall (Forall (within lo hi)) (uniform_filter g).
Proof.
  intros H. unfold uniform_filter, uniform_filter_axis0.
  rewrite <- list_fmap_compose. apply Forall_fmap, list.Forall_forall.
  intros i [_ Hi]%elem_of_seq. simpl in Hi. unfold compose.
  apply uniform_filter_row_within.
  assert (Hk : forall k, exists row,
             g !! reflect_index (length g) k = Some row /\
             Forall (within lo hi) row).
  { intros k.
    destruct (lookup_lt_is_Some_2 g (reflect_index (length g) k)) as [row Hrow].
    { apply RadarProofs.reflect_index_lt. lia. }
    exists row. split; [done|]. by eapply Forall_lookup_1. }
  unfold window5. cbn [fmap list_fmap].
  destruct (Hk (Z.of_nat i + -2)%Z) as (r1 & -> & H1).
  destruct (Hk (Z.of_nat i + -1)%Z) as (r2 & -> & H2).
  destruct (Hk (Z.of_nat i + 0)%Z) as (r3 & -> & H3).
  destruct (Hk (Z.of_nat i + 1)%Z) as (r4 & -> & H4).
  destruct (Hk (Z.of_nat i + 2)%Z) as (r5 & -> & H5).
  cbn [default from_option]. by apply row_mean5_within.
Qed.

(** The overall variance of a finite raster is not negative (it is
    not-a-number when the raster has no element). *)
Lemma var_all_nonneg (temp : grid) :
  Forall (Forall finite) temp -> var_all temp = NaN \/ nonneg (var_all temp).
Proof.
  intros Hfin.
  assert (Hr : Forall finite (ravel temp)).
  { apply list.Forall_forall. intros z (row & Hrow & Hz)%elem_of_ravel.
    rewrite list.Forall_forall in Hfin. specialize (Hfin row Hrow).
    rewrite list.Forall_forall in Hfin. auto. }
  destruct (RadarProofs.finite_list _ Hr) as [qs Hqs].
  unfold var_all, mean_all, fsum, of_nat. rewrite Hqs. clear Hr Hqs Hfin.
  rewrite length_fmap, RadarProofs.foldl_fadd_Fin.
  destruct qs as [|q0 qs']; [left; by vm_compute|]. right.
  set (qs := q0 :: qs').
  assert (Hn : (0 < length qs)%nat) by (simpl; lia).
  pose proof (RadarProofs.of_Z_nat_ne_0 _ Hn) as Hne.
  assert (Hnpos : 0 < of_Z (Z.of_nat (length qs))).
  { qc2q. change 0%Q with (inject_Z 0). rewrite <- Zlt_Qlt. lia. }
  set (N := of_Z (Z.of_nat (length qs))) in *.
  cbn [fdiv]. rewrite (bool_decide_eq_false_2 _ Hne).
  set (mu := foldl Qcplus 0 qs / N).
  rewrite <- list_fmap_compose.
  rewrite (list_fmap_ext _ (Fin ∘ (fun q => (q + - mu) * (q + - mu))) qs)
    by (by intros).
  rewrite list_fmap_compose, RadarProofs.foldl_fadd_Fin.
  cbn [fdiv]. rewrite (bool_decide_eq_false_2 _ Hne).
  eexists. split; [done|].
  assert (HD : 0 <= foldl Qcplus 0 ((fun q => (q + - mu) * (q + - mu)) <$> qs)).
  { apply RadarProofs.foldl_Qcplus_ge.
    apply Forall_fmap, Forall_true. intros q. simpl.
    apply RadarProofs.Qc_square_nonneg. }
  revert HD Hnpos.
  generalize (foldl Qcplus 0 ((fun q => (q + - mu) * (q + - mu)) <$> qs)).
  generalize N. intros n d HD Hn'. qc2q.
  apply Qle_shift_div_l; lra.
Qed.

(** The weight of the filter is a fraction between 0 and 1, or
    not-a-number (0/0). *)
Lemma weight_unit (v ov : npfloat) :
  nonneg v -> ov = NaN \/ nonneg ov ->
  fdiv v (fadd v ov) = NaN \/ within 0 1 (fdiv v (fadd v ov)).
Proof.
  intros (a & -> & Ha) [-> | (b & -> & Hb)]; [by left|]. simpl.
  case_bool_decide as Hz.
  - left. rewrite bool_decide_eq_true_2; [done|]. qc2q. lra.
  - right. eexists. split; [done|]. qc2q. change (this 1) with 1%Q.
    assert (0 < this a + this b)%Q by lra. split.
    + apply Qle_shift_div_l; lra.
    + apply Qle_shift_div_r; lra.
Qed.

Lemma blend_within (lo hi : Qc) (m w x : npfloat) :
  within lo hi m -> within lo hi x -> w = NaN \/ within 0 1 w ->
  let y := fadd m (fmul w (fsub x m)) in y = NaN \/ within lo hi y.
Proof.
  intros (a & -> & La & Ua) (b & -> & Lb & Ub) [-> | (t & -> & Lt & Ut)];
    [by left|].
  right. simpl. eexists. split; [done|]. qc2q. change (this 1) with 1%Q.
  split; nra.
Qed.

Lemma gget_gmap2 (f : npfloat -> npfloat -> npfloat) (a b : grid) (i j : nat)
    (y : npfloat) :
  gget (gmap2 f a b) i j = Some y ->
  exists u v, gget a i j = Some u /\ gget b i j = Some v /\ y = f u v.
Proof.
  unfold gmap2. rewrite gget_zip_with. unfold gget.
  destruct (a !! i) as [ra|]; simpl; [|done].
  destruct (b !! i) as [rb|]; simpl; [|done].
  destruct (ra !! j) as [u|]; simpl; [|done].
  destruct (rb !! j) as [v|]; simpl; [|done].
  intros [= <-]. eauto.
Qed.

Lemma Forall2_gget (P : npfloat -> npfloat -> Prop) (a b : grid) (i j : nat)
    (u v : npfloat) :
  Forall2 (Forall2 P) a b -> gget a i j = Some u -> gget b i j = Some v -> P u v.
Proof.
  intros H Hu Hv. unfold gget in Hu, Hv.
  destruct (a !! i) as [ra|] eqn:Ha; simpl in Hu; [|done].
  destruct (b !! i) as [rb|] eqn:Hb; simpl in Hv; [|done].
  eapply Forall2_lookup_lr; [|exact Hu|exact Hv].
  eapply Forall2_lookup_lr; [exact H|exact Ha|exact Hb].
Qed.

Lemma Forall_from_gget (P : npfloat -> Prop) (g : grid) :
  (forall i j y, gget g i j = Some y -> P y) -> Forall (Forall P) g.
Proof.
  intros H. apply Forall_lookup. intros i row Hrow.
  apply Forall_lookup. intros j y Hy. apply (H i j). unfold gget.
  by rewrite Hrow.
Qed.

(** Every value of the filter before no-data is put back is not-a-number
    or between the bounds of the substituted raster. *)
Lemma lee_unmasked_within (lo hi : Qc) (temp : grid) :
  Forall (Forall (within lo hi)) temp ->
  Forall (Forall (fun y => y = NaN \/ within lo hi y)) (lee_unmasked temp).
Proof.
  intros Hw.
  assert (Hfin : Forall (Forall finite) temp).
  { eapply list.Forall_impl; [exact Hw|]. intros row Hrow.
    eapply list.Forall_impl; [exact Hrow|]. apply within_finite. }
  pose proof (RadarProofs.uniform_filter_square_below temp Hfin) as Hsb.
  pose proof (uniform_filter_within lo hi temp Hw) as Hmean.
  pose proof (var_all_nonneg temp Hfin) as Hov.
  apply Forall_from_gget. intros i j y Hy. unfold lee_unmasked in Hy.
  apply gget_gmap2 in Hy as (m & p & Hm & Hp & ->).
  apply gget_gmap2 in Hp as (w & d & Hwt & Hd & ->).
  apply gget_gmap2 in Hd as (x & m' & Hx & Hm' & ->).
  rewrite Hm in Hm'. injection Hm' as <-.
  rewrite gget_gmap in Hwt.
  destruct (gget (gmap2 fsub (uniform_filter (gmap fsquare temp))
                        (gmap fsquare (uniform_filter temp))) i j)
    as [v|] eqn:Hv; simpl in Hwt; [|done].
  injection Hwt as <-.
  apply blend_within.
  - exact (Forall_gget _ _ _ _ _ Hmean Hm).
  - exact (Forall_gget _ _ _ _ _ Hw Hx).
  - apply weight_unit; [|done].
    eapply Forall_gget; [|exact Hv]. by apply RadarProofs.variance_nonneg.
Qed.

Lemma temp_of_within (db : grid) :
  Forall (Forall nodata_or_plausible) db ->
  Forall (Forall (within db_min db_max)) (temp_of db).
Proof.
  intros H. unfold temp_of, gmap. apply Forall_fmap.
  eapply list.Forall_impl; [exact H|]. intros row Hrow. simpl.
  apply Forall_fmap. eapply list.Forall_impl; [exact Hrow|].
  intros x [-> | (q & -> & Hq)]; simpl.
  - exists db_min. split; [done|]. by split.
  - by exists q.
Qed.

Lemma lee_filtered_plausible (db : grid) :
  Forall (Forall nodata_or_plausible) db ->
  Forall (Forall nodata_or_plausible) (lee_filtered db).
Proof.
  intros H. pose proof (lee_unmasked_within _ _ _ (temp_of_within db H)) as Hl.
  apply Forall_from_gget. intros i j y Hy. unfold lee_filtered, put_nan in Hy.
  apply gget_gmap2 in Hy as (x & z & Hx & Hz & ->).
  destruct (isnan x); [by left|]. by eapply (Forall_gget _ _ _ _ _ Hl).
Qed.

(** *** No-data positions through the filter *)



(** *** The texture step: when it raises and what it returns *)

Lemma ravel_slice_short (r0 r1 c0 c1 : nat) (a : grid) :
  (length a <= r0)%nat \/ Forall (fun row => (length row <= c0)%nat) a ->
  ravel (slice r0 r1 c0 c1 a) = [].
Proof.
  intros [H|H]; unfold slice, ravel.
  - rewrite (drop_ge a) by done. by rewrite take_nil.
  - assert (Hall : Forall (fun row : list npfloat => row = [])
                     ((fun row => take (c1 - c0) (drop c0 row))
                        <$> take (r1 - r0) (drop r0 a))).
    { apply Forall_fmap, Forall_take, Forall_drop.
      eapply list.Forall_impl; [exact H|]. intros row Hrow. simpl.
      rewrite (drop_ge row) by done. by rewrite take_nil. }
    induction Hall as [|row l -> _ IH]; [done|]. simpl. exact IH.
Qed.

(** X11: the texture step raises ValueError on a filtered raster that
    has at most 1000 rows, or whose rows have at most 1000 columns: the
    patch is then empty and the minimum of an empty array is refused. *)
Theorem texture_small_raster_raises (lee : grid) :
  (length lee <= 1000)%nat \/ Forall (fun row => (length row <= 1000)%nat) lee ->
  texture lee = Raise ValueError.
Proof.
  intros H.
  unfold texture, texture_patch, patch_uint8, norm_patch, nanmin, nan_reduce.
  by rewrite (ravel_slice_short _ _ _ _ _ H).
Qed.

Lemma texture_small_raster_raises_witness :
  texture [[Fin 0; NaN]; [NaN; Fin 0]] = Raise ValueError.
Proof. apply texture_small_raster_raises. left. simpl. lia. Defined.

Lemma mapM_Ok_inv {A B} (f : A -> result B) (l : list A) (k : list B) :
  mapM f l = Ok k -> Forall2 (fun x y => f x = Ok y) l k.
Proof.
  revert k. induction l as [|x l IH]; intros k.
  - intros [= <-]. constructor.
  - cbn [mapM]. destruct (f x) as [y|e] eqn:E; simpl; [|done].
    destruct (mapM f l) as [k'|e]; simpl; [|done].
    intros [= <-]. constructor; [done|]. by apply IH.
Qed.

Lemma ubyte_of_range (a : npfloat) (z : Z) :
  ubyte_of a = Ok z -> (0 <= z <= 255)%Z.
Proof.
  destruct a as [| |q]; simpl; try done.
  destruct (_ || _); [done|]. intros [= <-]. unfold clip. lia.
Qed.

Lemma norm_patch_shape (patch n : grid) :
  norm_patch patch = Ok n -> shape_of n = shape_of patch.
Proof.
  unfold norm_patch. destruct (nanmin patch) as [lo|]; simpl; [|done].
  destruct (nanmax patch) as [hi|]; simpl; [|done].
  intros [= <-]. apply shape_of_gmap.
Qed.

(** X12: whenever the quantization of a patch returns, the image has the
    shape of the patch and every level lies in 0 .. 255. *)
Theorem patch_uint8_levels (patch : grid) (img : list (list Z)) :
  patch_uint8 patch = Ok img ->
  shape_of img = shape_of patch /\
  Forall (Forall (fun z => (0 <= z <= 255)%Z)) img.
Proof.
  unfold patch_uint8. destruct (norm_patch patch) as [n|] eqn:Hn; simpl; [|done].
  intros H%mapM_Ok_inv. apply norm_patch_shape in Hn.
  rewrite <- Hn, <- (shape_of_gmap (nan_to_num 0) n).
  generalize dependent (gmap (nan_to_num 0) n). clear. intros g H.
  induction H as [|row irow g img Hrow _ [IH1 IH2]]; [done|].
  apply mapM_Ok_inv in Hrow. unfold shape_of in *. rewrite !fmap_cons.
  split; [f_equal; [|done] | constructor; [|done]].
  - symmetry. by eapply list.Forall2_length.
  - clear -Hrow. induction Hrow as [|x z row irow Hx _ IH]; constructor; [|done].
    by eapply ubyte_of_range.
Qed.

Lemma patch_uint8_levels_witness :
  shape_of [[0; 0; 255]]%Z = shape_of [[NaN; Fin (of_Z (-20)); Fin (of_Z (-10))]] /\
  Forall (Forall (fun z => (0 <= z <= 255)%Z)) [[0; 0; 255]]%Z.
Proof.
  apply (patch_uint8_levels [[NaN; Fin (of_Z (-20)); Fin (of_Z (-10))]]).
  by vm_compute.
Defined.

Lemma nan_reduce_returns (op : npfloat -> npfloat -> npfloat) (g : grid) :
  ravel g <> [] -> exists m, nan_reduce op g = Ok m.
Proof.
  unfold nan_reduce. destruct (ravel g) as [|x l]; [done|]. intros _.
  destruct (valid (x :: l)); eauto.
Qed.

Lemma patch_uint8_zero_range (patch : grid) (m : npfloat) :
  nanmin patch = Ok m -> nanmax patch = Ok m ->
  patch_uint8 patch
  = Ok (fmap (M:=list) (fmap (M:=list) (fun _ => 0%Z)) patch).
Proof.
  intros Hmin Hmax. unfold patch_uint8, norm_patch.
  rewrite Hmin, Hmax. simpl. rewrite gmap_compose.
  apply (RadarProofs.img_as_ubyte_gmap _ (fun _ => 0%Z)).
  intros x Hx. simpl. by rewrite (RadarProofs.degenerate_norm patch m x).
Qed.

Lemma patch_uint8_by_level (patch : grid) (lo hi : Qc) :
  nanmin patch = Ok (Fin lo) -> nanmax patch = Ok (Fin hi) -> lo < hi ->
  patch_uint8 patch = Ok (fmap (M:=list) (fmap (M:=list) (level lo hi)) patch).
Proof.
  intros Hmin Hmax Hlh.
  destruct (RadarProofs.nanmin_spec _ _ Hmin) as [[? _] | (_ & _ & Hlo)]; [done|].
  destruct (RadarProofs.nanmax_spec _ _ Hmax) as [[? _] | (_ & _ & Hhi)]; [done|].
  unfold patch_uint8, norm_patch. rewrite Hmin, Hmax. simpl.
  rewrite gmap_compose. apply RadarProofs.img_as_ubyte_gmap.
  intros x Hx. destruct (isnan x) eqn:Hn.
  - destruct x; try done.
  - destruct (RadarProofs.finite_between lo hi x) as (q & -> & H1 & H2); auto.
    by apply RadarProofs.ubyte_of_normalized.
Qed.

(** The quantization returns on every patch that is not empty and holds
    only no-data and finite values. *)
Lemma patch_uint8_returns (patch : grid) :
  Forall (Forall (fun x => x = NaN \/ finite x)) patch -> ravel patch <> [] ->
  exists img, patch_uint8 patch = Ok img.
Proof.
  intros Hall Hne.
  assert (Hfin : forall x, x ∈ ravel patch -> isnan x = false -> finite x).
  { intros x (row & Hrow & Hx)%elem_of_ravel Hn.
    rewrite list.Forall_forall in Hall. specialize (Hall row Hrow).
    rewrite list.Forall_forall in Hall. destruct (Hall x Hx) as [-> | H]; done. }
  destruct (nan_reduce_returns fmin2 patch Hne) as [lo Hmin].
  destruct (nan_reduce_returns fmax2 patch Hne) as [hi Hmax].
  fold (nanmin patch) in Hmin. fold (nanmax patch) in Hmax.
  destruct (decide (lo = hi)) as [-> | Hdiff].
  { eexists. by eapply patch_uint8_zero_range. }
  destruct (RadarProofs.nanmin_spec _ _ Hmin) as [[-> Hnan] | (Hlo & Hlo_in & Hmin')].
  { destruct (RadarProofs.nanmax_spec _ _ Hmax) as [[-> _] | (Hhi & Hhi_in & _)];
      [done|]. rewrite (Hnan hi Hhi_in) in Hhi. done. }
  destruct (RadarProofs.nanmax_spec _ _ Hmax) as [[-> Hnan] | (Hhi & Hhi_in & Hmax')].
  { rewrite (Hnan lo Hlo_in) in Hlo. done. }
  destruct (Hfin lo Hlo_in Hlo) as [l ->].
  destruct (Hfin hi Hhi_in Hhi) as [h ->].
  eexists. apply (patch_uint8_by_level patch l h Hmin Hmax).
  specialize (Hmin' (Fin h) Hhi_in eq_refl). simpl in Hmin'.
  apply bool_decide_eq_false_1 in Hmin'.
  assert (l <> h) by congruence. clear -Hmin' H.
  apply Qcnot_lt_le in Hmin'. qc2q. lra.
Qed.

Lemma Forall_slice (P : npfloat -> Prop) (r0 r1 c0 c1 : nat) (a : grid) :
  Forall (Forall P) a -> Forall (Forall P) (slice r0 r1 c0 c1 a).
Proof.
  intros H. unfold slice. apply Forall_fmap, Forall_take, Forall_drop.
  eapply list.Forall_impl; [exact H|]. intros row Hrow. simpl.
  by apply Forall_take, Forall_drop.
Qed.

(** X13: on the output of the Lee filter the texture step fails in one
    way only: it raises ValueError when the patch is empty, and returns a
    quantized patch with its contrast otherwise. *)
Theorem texture_of_filtered_window (log10 : npfloat -> npfloat) (vh_window : grid) :
  let lee := lee_filtered (sigma0_db_window log10 vh_window) in
  (ravel (slice 1000 1200 1000 1200 lee) = [] /\ texture lee = Raise ValueError) \/
  (ravel (slice 1000 1200 1000 1200 lee) <> [] /\
   exists img, texture lee = Ok (img, contrast_of img)).
Proof.
  intros lee. destruct (decide (ravel (slice 1000 1200 1000 1200 lee) = []))
    as [He|Hne].
  - left. split; [done|].
    unfold texture, texture_patch, patch_uint8, norm_patch, nanmin, nan_reduce.
    by rewrite He.
  - right. split; [done|].
    destruct (patch_uint8_returns (slice 1000 1200 1000 1200 lee)) as [img Himg];
      [|done|].
    + apply Forall_slice.
      assert (Hp : Forall (Forall nodata_or_plausible) lee).
      { apply lee_filtered_plausible.
        unfold sigma0_db_window. rewrite RadarProofs.mask_gmap.
        apply Forall_gmap. intros a. destruct (in_range a) eqn:Hr; [|by left].
        right. by apply RadarProofs.in_range_bounds. }
      eapply list.Forall_impl; [exact Hp|]. intros row Hrow.
      eapply list.Forall_impl; [exact Hrow|].
      intros x [-> | H]; [by left | right; by eapply within_finite].
    + exists img. unfold texture, texture_patch. by rewrite Himg.
Qed.

(** *** The contrast *)

Lemma Qc_sum_nonneg (l : list Qc) : Forall (fun q => 0 <= q) l -> 0 <= Qc_sum l.
Proof.
  induction 1 as [|q l Hq _ IH]; simpl; [done|]. qc2q. lra.
Qed.

Lemma cooccurrence_nonneg (img : list (list Z)) (i j : Z) :
  (0 <= cooccurrence img i j)%Z.
Proof. unfold cooccurrence. lia. Qed.

Lemma foldr_Zadd_nonneg (l : list Z) :
  Forall (fun z => (0 <= z)%Z) l -> (0 <= foldr Z.add 0 l)%Z.
Proof. induction 1; simpl; lia. Qed.

Lemma glcm_denominator_pos (img : list (list Z)) : 0 < glcm_denominator img.
Proof.
  unfold glcm_denominator.
  assert (H : (0 <= glcm_total img)%Z).
  { apply foldr_Zadd_nonneg, list.Forall_forall.
    intros z (i & Hz & _)%list_elem_of_bind.
    apply list_elem_of_fmap in Hz as (j & -> & _). unfold glcm_sym.
    pose proof (cooccurrence_nonneg img i j).
    pose proof (cooccurrence_nonneg img j i). lia. }
  case_bool_decide; qc2q; change 0%Q with (inject_Z 0); rewrite <- Zlt_Qlt; lia.
Qed.

(** X14: the contrast of an image is never negative. *)
Theorem contrast_of_nonneg (img : list (list Z)) : 0 <= contrast_of img.
Proof.
  unfold contrast_of. apply Qc_sum_nonneg, list.Forall_forall.
  intros t (i & Ht & _)%list_elem_of_bind.
  apply list_elem_of_fmap in Ht as (j & -> & _).
  pose proof (glcm_denominator_pos img) as Hd.
  assert (Hs : (0 <= glcm_sym img i j)%Z).
  { unfold glcm_sym. pose proof (cooccurrence_nonneg img i j).
    pose proof (cooccurrence_nonneg img j i). lia. }
  assert (Hsq : (0 <= (i - j) * (i - j))%Z) by apply Z.square_nonneg.
  revert Hd Hs Hsq. generalize (glcm_denominator img) (glcm_sym img i j)
                               ((i - j) * (i - j))%Z.
  intros d a b Hd Ha Hb. qc2q.
  rewrite Zle_Qle in Ha, Hb. change (inject_Z 0) with 0%Q in Ha, Hb.
  apply Qmult_le_0_compat; [|done]. apply Qle_shift_div_l; lra.
Qed.

(** *** The quantization keeps the order of the values *)

Lemma rint_bounds (q : Qc) : (Qfloor q <= rint q <= Qfloor q + 1)%Z.
Proof.
  unfold rint. repeat case_bool_decide; try lia. destruct (Z.even _); lia.
Qed.

Lemma rint_mono (q q' : Qc) : q <= q' -> (rint q <= rint q')%Z.
Proof.
  intros Hle.
  assert (Hf : (Qfloor q <= Qfloor q')%Z) by (by apply Qfloor_resp_le).
  pose proof (rint_bounds q) as Hb. pose proof (rint_bounds q') as Hb'.
  destruct (decide (Qfloor q = Qfloor q')) as [He|Hne]; [|lia].
  clear Hb Hb' Hf. unfold rint. rewrite <- He. clear He.
  generalize (Qfloor q). intros f.
  repeat case_bool_decide; try lia; try (destruct (Z.even f); lia);
    exfalso; qc2q; lra.
Qed.

Lemma clip_mono (lo hi z z' : Z) : (z <= z')%Z -> (clip lo hi z <= clip lo hi z')%Z.
Proof. unfold clip. lia. Qed.

Lemma level_mono (lo hi q q' : Qc) :
  lo < hi -> q <= q' -> (level lo hi (Fin q) <= level lo hi (Fin q'))%Z.
Proof.
  intros Hlh Hq. simpl. apply clip_mono, rint_mono. qc2q.
  assert (Hd : (0 < this hi - this lo)%Q) by lra.
  apply Qmult_le_compat_r; [|unfold Qle; simpl; lia].
  unfold Qdiv. apply Qmult_le_compat_r; [lra|].
  apply Qlt_le_weak, Qinv_lt_0_compat, Hd.
Qed.

Lemma level_lo (lo hi : Qc) : level lo hi (Fin lo) = 0%Z.
Proof.
  simpl. assert (E : (lo - lo) / (hi - lo) * of_Z 255 = 0).
  { qc2q. unfold Qdiv. ring. }
  by rewrite E.
Qed.

Lemma level_hi (lo hi : Qc) : lo < hi -> level lo hi (Fin hi) = 255%Z.
Proof.
  intros Hlh. simpl. assert (E : (hi - lo) / (hi - lo) * of_Z 255 = of_Z 255).
  { qc2q. field. lra. }
  by rewrite E.
Qed.

Lemma pixel_fmap (h : npfloat -> Z) (patch : grid) (i j : nat) :
  pixel (fmap (M:=list) (fmap (M:=list) h) patch) i j = h <$> gget patch i j.
Proof.
  unfold pixel, gget. rewrite list_lookup_fmap.
  destruct (patch !! i) as [row|]; simpl; [|done]. by rewrite list_lookup_fmap.
Qed.

(** X15: when the patch has a least value below a greatest value, the
    quantization returns an image in which the least value has level 0,
    the greatest level 255, and a larger value never has a smaller
    level. *)
Theorem patch_uint8_keeps_order (patch : grid) (lo hi : Qc) :
  nanmin patch = Ok (Fin lo) -> nanmax patch = Ok (Fin hi) -> lo < hi ->
  exists img,
    patch_uint8 patch = Ok img /\
    (forall i j, gget patch i j = Some (Fin lo) -> pixel img i j = Some 0%Z) /\
    (forall i j, gget patch i j = Some (Fin hi) -> pixel img i j = Some 255%Z) /\
    (forall i j i' j' q q',
       gget patch i j = Some (Fin q) -> gget patch i' j' = Some (Fin q') ->
       q <= q' ->
       exists z z', pixel img i j = Some z /\ pixel img i' j' = Some z' /\
                    (z <= z')%Z).
Proof.
  intros Hmin Hmax Hlh. eexists. split; [by apply patch_uint8_by_level|].
  split_and!.
  - intros i j H. by rewrite pixel_fmap, H, <- (level_lo lo hi).
  - intros i j H. by rewrite pixel_fmap, H, <- (level_hi lo hi Hlh).
  - intros i j i' j' q q' H H' Hq. exists (level lo hi (Fin q)), (level lo hi (Fin q')).
    rewrite !pixel_fmap, H, H'. split_and!; [done..|]. by apply level_mono.
Qed.

Lemma patch_uint8_keeps_order_witness :
  exists img,
    patch_uint8 [[NaN; Fin (of_Z (-20)); Fin (of_Z (-10))]] = Ok img /\
    pixel img 0 1 = Some 0%Z /\ pixel img 0 2 = Some 255%Z.
Proof.
  destruct (patch_uint8_keeps_order
              [[NaN; Fin (of_Z (-20)); Fin (of_Z (-10))]]
              (of_Z (-20)) (of_Z (-10)) eq_refl eq_refl eq_refl)
    as (img & Himg & Hlo & Hhi & _).
  exists img. split; [exact Himg|]. split; [by apply Hlo | by apply Hhi].
Defined.

(** *** The zoomed views and the texture patch *)

Lemma gget_slice (r0 r1 c0 c1 : nat) (a : grid) (i j : nat) :
  gget (slice r0 r1 c0 c1 a) i j
  = if decide (i < r1 - r0 /\ j < c1 - c0)%nat
    then gget a (r0 + i) (c0 + j) else None.
Proof.
  unfold gget, slice. rewrite list_lookup_fmap, lookup_take, lookup_drop.
  destruct (decide (i < r1 - r0)%nat) as [Hi|Hi].
  - destruct (a !! (r0 + i)%nat) as [row|]; simpl.
    + rewrite lookup_take, lookup_drop.
      destruct (decide (j < c1 - c0)%nat) as [Hj|Hj].
      * by rewrite decide_True.
      * rewrite decide_False; [done|]. by intros [_ ?].
    + by destruct (decide _).
  - simpl. rewrite decide_False; [done|]. by intros [? _].
Qed.

(** X16: the zoomed view after filtering shows the rows and columns
    1000 .. 1499 of the filtered raster, as far as they exist, and the
    texture patch is its upper left corner of 200 x 200. *)
Theorem texture_patch_in_zoom (lee : grid) (i j : nat) :
  gget (patch_after lee) i j
  = (if decide (i < 500 /\ j < 500)%nat
     then gget lee (1000 + i) (1000 + j) else None) /\
  gget (slice 1000 1200 1000 1200 lee) i j
  = (if decide (i < 200 /\ j < 200)%nat then gget (patch_after lee) i j else None).
Proof.
  unfold patch_after. rewrite !gget_slice.
  change (1500 - 1000)%nat with 500%nat. change (1200 - 1000)%nat with 200%nat.
  split; [done|].
  destruct (decide (i < 200 /\ j < 200)%nat) as [[Hi Hj]|H]; [|done].
  rewrite decide_True; [done|]. lia.
Qed.

(** X17: in the two zoomed views a pixel that is no-data before the
    filter is no-data after it. *)
Theorem zoom_nodata_kept (db : grid) (r c i j : nat) :
  shape_of db = replicate r c ->
  gget (patch_before db) i j = Some NaN ->
  gget (patch_after (lee_filtered db)) i j = Some NaN.
Proof.
  unfold patch_before, patch_after. rewrite !gget_slice.
  intros Hs. destruct (decide _); [|done]. intros Hx.
  by destruct (RadarProofs.gget_lee_filtered db r c _ _ NaN Hs Hx) as (y & _ & ->).
Qed.

Lemma zoom_nodata_kept_witness :
  gget (patch_after (lee_filtered (full 1001 1001 NaN))) 0 0 = Some NaN.
Proof.
  apply (zoom_nodata_kept (full 1001 1001 NaN) 1001 1001 0 0).
  - unfold shape_of, full. rewrite fmap_replicate. by rewrite length_replicate.
  - unfold patch_before. rewrite gget_slice. simpl.
    apply RadarProofs.gget_full; lia.
Defined.

(** *** The printed minimum and maximum of the masked window *)

Lemma ravel_gmap (f : npfloat -> npfloat) (g : grid) :
  ravel (gmap f g) = f <$> ravel g.
Proof.
  unfold ravel, gmap. induction g as [|row g IH]; [done|].
  rewrite fmap_cons. simpl. by rewrite fmap_app, IH.
Qed.

Lemma sigma0_db_window_plausible (log10 : npfloat -> npfloat) (vh_window : grid) :
  Forall (Forall nodata_or_plausible) (sigma0_db_window log10 vh_window).
Proof.
  unfold sigma0_db_window. rewrite RadarProofs.mask_gmap. apply Forall_gmap.
  intros a. destruct (in_range a) eqn:Hr; [|by left].
  right. by apply RadarProofs.in_range_bounds.
Qed.

(** X25: on a window that is not empty the minimum and maximum printed
    after the masking are both defined.  They are not-a-number together,
    when every value was masked; otherwise they are values of the masked
    window with [-40 <= min <= max <= 5] that bound every value left. *)
Theorem masked_extrema (log10 : npfloat -> npfloat) (vh_window : grid) :
  ravel vh_window <> [] ->
  let db := sigma0_db_window log10 vh_window in
  exists lo hi,
    nanmin db = Ok lo /\ nanmax db = Ok hi /\
    ((lo = NaN /\ hi = NaN /\ forall x, x ∈ ravel db -> x = NaN) \/
     (exists a b,
        lo = Fin a /\ hi = Fin b /\
        of_Z (-40) <= a /\ a <= b /\ b <= of_Z 5 /\
        Fin a ∈ ravel db /\ Fin b ∈ ravel db /\
        forall q, Fin q ∈ ravel db -> a <= q /\ q <= b)).
Proof.
  intros Hne db.
  assert (Hdb : ravel db <> []).
  { unfold db, sigma0_db_window, mask_above, mask_below, to_db, sigma0_linear.
    rewrite !ravel_gmap. destruct (ravel vh_window); done. }
  assert (Hpl : forall x, x ∈ ravel db -> isnan x = false ->
                          within db_min db_max x).
  { intros x (row & Hrow & Hx)%elem_of_ravel Hn.
    pose proof (sigma0_db_window_plausible log10 vh_window) as Hall.
    fold db in Hall.
    rewrite list.Forall_forall in Hall. specialize (Hall row Hrow).
    rewrite list.Forall_forall in Hall. destruct (Hall x Hx) as [-> | H]; done. }
  destruct (nan_reduce_returns fmin2 db Hdb) as [lo Hmin].
  destruct (nan_reduce_returns fmax2 db Hdb) as [hi Hmax].
  fold (nanmin db) in Hmin. fold (nanmax db) in Hmax.
  exists lo, hi. split; [done|]. split; [done|].
  destruct (RadarProofs.nanmin_spec _ _ Hmin)
    as [[-> Hnan] | (Hlo & Hlo_in & Hmin')].
  { left. split; [done|]. split; [|done].
    destruct (RadarProofs.nanmax_spec _ _ Hmax) as [[-> _] | (Hhi & Hhi_in & _)];
      [done|]. rewrite (Hnan hi Hhi_in) in Hhi. done. }
  destruct (RadarProofs.nanmax_spec _ _ Hmax)
    as [[-> Hnan] | (Hhi & Hhi_in & Hmax')].
  { rewrite (Hnan lo Hlo_in) in Hlo. done. }
  right.
  destruct (Hpl lo Hlo_in Hlo) as (a & -> & Ha1 & Ha2).
  destruct (Hpl hi Hhi_in Hhi) as (b & -> & Hb1 & Hb2).
  exists a, b.
  assert (Hbound : forall q, Fin q ∈ ravel db -> a <= q /\ q <= b).
  { intros q Hq. split.
    - specialize (Hmin' (Fin q) Hq eq_refl). simpl in Hmin'.
      apply bool_decide_eq_false_1 in Hmin'. by apply Qcnot_lt_le.
    - specialize (Hmax' (Fin q) Hq eq_refl). simpl in Hmax'.
      apply bool_decide_eq_false_1 in Hmax'. by apply Qcnot_lt_le. }
  split_and!; try done. by apply (Hbound b).
Qed.

Lemma masked_extrema_witness :
  exists lo hi,
    nanmin (sigma0_db_window log10_floor [[Fin (of_Z 10000); Fin 0]]) = Ok lo /\
    nanmax (sigma0_db_window log10_floor [[Fin (of_Z 10000); Fin 0]]) = Ok hi.
Proof.
  destruct (masked_extrema log10_floor [[Fin (of_Z 10000); Fin 0]])
    as (lo & hi & Hlo & Hhi & _); [discriminate|].
  exists lo, hi. exact (conj Hlo Hhi).
Defined.

End RadarMore.

(** ** More of the optical script *)

Module OpticalMore.
Import Optical.

Lemma ndvi_px_value (n r : Qc) :
  0 <= n -> 0 <= r -> ndvi_px (Fin n) (Fin r) = Fin ((n - r) / (n + r + epsilon)).
Proof.
  intros Hn Hr. unfold ndvi_px. simpl.
  rewrite bool_decide_eq_false_2; [done|].
  pose proof OpticalProofs.epsilon_pos as He. intros H. qc2q. lra.
Qed.

(** X18: on finite non-negative reflectances the index is a finite
    number whose sign is the sign of NIR minus red: positive exactly when
    NIR exceeds red, zero exactly when they are equal (also when both are
    0), negative exactly when red exceeds NIR. *)
Theorem ndvi_px_sign (n r : Qc) :
  0 <= n -> 0 <= r ->
  exists q, ndvi_px (Fin n) (Fin r) = Fin q /\
            (0 < q <-> r < n) /\ (q = 0 <-> n = r) /\ (q < 0 <-> n < r).
Proof.
  intros Hn Hr. rewrite ndvi_px_value by done. eexists. split; [done|].
  pose proof OpticalProofs.epsilon_pos as He.
  set (d := n + r + epsilon).
  assert (Hd : 0 < d) by (unfold d; qc2q; lra).
  assert (E : n - r = (n - r) / d * d).
  { unfold d. qc2q. field. lra. }
  generalize dependent ((n - r) / d). intros q E.
  clear He. clearbody d.
  split_and!; split; intros H; qc2q; nra.
Qed.

Lemma ndvi_px_sign_witness :
  exists q, ndvi_px (Fin (of_Z 3)) (Fin (of_Z 1)) = Fin q /\ 0 < q.
Proof.
  destruct (ndvi_px_sign (of_Z 3) (of_Z 1)) as (q & Hq & Hpos & _);
    [done|done|].
  exists q. split; [exact Hq|]. by apply Hpos.
Defined.

End OpticalMore.

(** ** Download of a product *)

Module DownloadProofs.
Import Download.
Section Bytes.
Context {byte : Type}.

Lemma written_from (file : list byte) (chunks : list (list byte)) :
  foldl (write_chunk byte) file chunks = file ++ concat chunks.
Proof.
  revert file. induction chunks as [|chunk chunks IH]; intros file; simpl.
  - by rewrite app_nil_r.
  - rewrite IH. destruct chunk as [|b chunk]; simpl; [done|].
    by rewrite <- app_assoc.
Qed.

(** X21: the file written by the download holds the chunks of the
    response in the order received, nothing more and nothing less: the
    empty chunks that the loop skips carry no byte.  Its size is the sum
    of the sizes of the chunks. *)
Theorem written_is_concat (chunks : list (list byte)) :
  written byte chunks = concat chunks /\
  length (written byte chunks) = sum_list (length <$> chunks).
Proof.
  assert (E : written byte chunks = concat chunks).
  { unfold written. by rewrite written_from. }
  split; [done|]. rewrite E. clear E.
  induction chunks as [|c chunks IH]; [done|].
  simpl. rewrite length_app. by rewrite IH.
Qed.

End Bytes.
End DownloadProofs.

(** ** The pipeline runner *)

Module RunnerProofs.
Import Runner.
Section ReturnCodes.
Variable returncode : script -> Z.

(** X22: the runner reports success exactly when the three scripts all
    return 0. *)
Theorem main_completed_iff :
  (main returncode).2 = Completed <->
  returncode Ingestion = 0%Z /\ returncode Sentinel1 = 0%Z /\
  returncode Sentinel2 = 0%Z.
Proof.
  unfold main, run_script. repeat case_bool_decide; simpl; split; try done.
  all: intros (? & ? & ?); done.
Qed.

(** X23: a failure of the optical script ends the run while the radar
    script, started in the background, is never waited for: its return
    code is not looked at, whatever it is. *)
Theorem sentinel2_failure_leaves_sentinel1 :
  returncode Ingestion = 0%Z -> returncode Sentinel2 <> 0%Z ->
  main returncode
  = ([Run Ingestion; Spawn Sentinel1; Run Sentinel2], Failed Sentinel2) /\
  Spawn Sentinel1 ∈ (main returncode).1 /\
  Wait Sentinel1 ∉ (main returncode).1.
Proof.
  intros HI H2.
  assert (E : main returncode
              = ([Run Ingestion; Spawn Sentinel1; Run Sentinel2], Failed Sentinel2)).
  { unfold main, run_script.
    rewrite (bool_decide_eq_false_2 (returncode Ingestion <> 0%Z)) by (by intros []).
    simpl. by rewrite (bool_decide_eq_true_2 _ H2). }
  rewrite E. simpl. split_and!; [done| |].
  - apply list_elem_of_In. simpl. auto.
  - intros H%list_elem_of_In. simpl in H. by destruct H as [|[|[|[]]]].
Qed.

(** X24: in every run the processing scripts are started only after the
    ingestion has returned 0, the radar script is waited for only after
    the optical script has returned 0, and a script reported as failed has
    returned a code other than 0. *)
Theorem main_order :
  (forall s, s <> Ingestion ->
     Run s ∈ (main returncode).1 \/ Spawn s ∈ (main returncode).1 ->
     returncode Ingestion = 0%Z) /\
  (Wait Sentinel1 ∈ (main returncode).1 -> returncode Sentinel2 = 0%Z) /\
  (forall s, (main returncode).2 = Failed s -> returncode s <> 0%Z).
Proof.
  unfold main, run_script.
  destruct (decide (returncode Ingestion = 0%Z)) as [HI|HI].
  - rewrite (bool_decide_eq_false_2 (returncode Ingestion <> 0%Z)) by (by intros []).
    simpl. split; [done|].
    destruct (decide (returncode Sentinel2 = 0%Z)) as [H2|H2].
    + rewrite (bool_decide_eq_false_2 (returncode Sentinel2 <> 0%Z))
        by (by intros []).
      simpl. split; [done|]. case_bool_decide; simpl; [|done].
      by intros s [= <-].
    + rewrite (bool_decide_eq_true_2 _ H2). simpl. split.
      * intros H%list_elem_of_In. simpl in H. by destruct H as [|[|[|[]]]].
      * by intros s [= <-].
  - rewrite (bool_decide_eq_true_2 _ HI). simpl. split_and!.
    + intros s Hs [H|H]; apply list_elem_of_In in H; simpl in H.
      * destruct H as [[= <-]|[]]. done.
      * by destruct H as [|[]].
    + intros H%list_elem_of_In. simpl in H. by destruct H as [|[]].
    + by intros s [= <-].
Qed.

End ReturnCodes.

Lemma sentinel2_failure_leaves_sentinel1_witness :
  main (fun s => match s with Sentinel2 => 1 | Sentinel1 => 2 | _ => 0 end%Z)
  = ([Run Ingestion; Spawn Sentinel1; Run Sentinel2], Failed Sentinel2).
Proof.
  by apply (sentinel2_failure_leaves_sentinel1
              (fun s => match s with Sentinel2 => 1 | Sentinel1 => 2 | _ => 0 end%Z)).
Defined.

End RunnerProofs.
